(** * N-bit integer arithmetic algorithms: a shallow embedding of
      [python/arith_algorithms.py] and the properties of its operations.

    Python integers are unbounded, so they are [Z].  The bit operators
    [&], [|], [~], [<<] and [>>] are [Z.land], [Z.lor], [Z.lnot],
    [Z.shiftl] and [Z.shiftr]; the two shifts raise [ValueError] on a
    negative count, which is why every operation lives in the [result]
    monad below.  Flag dictionaries are finite maps from strings to
    Python values.  The randomized [verify] harness and the command-line
    [main] are not part of the arithmetic core and are not embedded. *)

From Stdlib Require Import ZArith Lia String Bool.
From stdpp Require Import base option gmap strings.

Local Open Scope string_scope.
Local Open Scope Z_scope.

(** ** Python runtime: exceptions, values, shifts, loops *)

Inductive exn : Type :=
  | ValueError (msg : string).

Inductive result (A : Type) : Type :=
  | Ok (x : A)
  | Raise (e : exn).

Arguments Ok {A} x.
Arguments Raise {A} e.

#[global] Instance result_ret : MRet result := λ A x, Ok x.

#[global] Instance result_bind : MBind result :=
  λ A B f m, match m with Ok x => f x | Raise e => Raise e end.

(** The values stored in a flag dictionary: [carry_out] is an [int]
    (the code computes it with [& 1]), [overflow] and [borrow] are
    [bool]s. *)
Inductive pyval : Type :=
  | PyInt (z : Z)
  | PyBool (b : bool).

(** Truth value of an integer ([if x:]) and of a Python value ([not x]). *)
Definition truthy_int (z : Z) : bool := negb (z =? 0).

Definition truthy (v : pyval) : bool :=
  match v with
  | PyInt z => truthy_int z
  | PyBool b => b
  end.

(** Python's [==] on these values: [bool] is a subclass of [int], so
    [True == 1] and [False == 0]. *)
Definition py_int_of (v : pyval) : Z :=
  match v with
  | PyInt z => z
  | PyBool b => Z.b2z b
  end.

Definition py_eqb (u v : pyval) : bool := py_int_of u =? py_int_of v.

(** [x << n] and [x >> n]. *)
Definition py_lshift (x n : Z) : result Z :=
  if n <? 0 then Raise (ValueError "negative shift count")
  else Ok (Z.shiftl x n).

Definition py_rshift (x n : Z) : result Z :=
  if n <? 0 then Raise (ValueError "negative shift count")
  else Ok (Z.shiftr x n).

(** [for i in range(width): s = body(i, s)], started at index [i]
    with [n] iterations left. *)
Fixpoint for_loop {S : Type} (n : nat) (i : Z)
    (body : Z → S → result S) (s : S) : result S :=
  match n with
  | O => Ok s
  | Datatypes.S n' => s' ← body i s; for_loop n' (i + 1) body s'
  end.

Definition for_range {S : Type} (width : Z)
    (body : Z → S → result S) (s : S) : result S :=
  for_loop (Z.to_nat width) 0 body s.

(** ** BitWidthOps *)

(** [value & ((1 << width) - 1)] *)
Definition mask_to_width (value width : Z) : result Z :=
  m ← py_lshift 1 width;
  mret (Z.land value (m - 1)).

(** Tests the sign bit [value & (1 << (width - 1))]. *)
Definition sign_extend (value width : Z) : result Z :=
  sb ← py_lshift 1 (width - 1);
  if truthy_int (Z.land value sb) then
    m ← py_lshift 1 width;
    mret (value - m)
  else mret value.

Definition to_unsigned (value width : Z) : result Z :=
  if value <? 0 then
    m ← py_lshift 1 width;
    mret (m + value)
  else mret value.

(** ** ShiftOps *)

(** The fill mask is [((1 << shift) - 1) << (width - shift)]; both
    shifts raise when [shift] is negative or exceeds [width]. *)
Definition arithmetic_right_shift (value shift width : Z) : result Z :=
  if shift =? 0 then mret value
  else
    sb ← py_lshift 1 (width - 1);
    let sign_bit := Z.land value sb in
    if truthy_int sign_bit then
      m ← py_lshift 1 shift;
      fill_mask ← py_lshift (m - 1) (width - shift);
      v ← py_rshift value shift;
      m2 ← py_lshift 1 width;
      mret (Z.land (Z.lor v fill_mask) (m2 - 1))
    else py_rshift value shift.

(** ** AddSub *)

(** [carry_out] is computed on every call and stored only when
    unsigned; the sign bits are read with [(x >> (width - 1)) & 1]. *)
Definition add (a b width : Z) (signed : bool)
    : result (Z * gmap string pyval) :=
  a ← mask_to_width a width;
  b ← mask_to_width b width;
  let res := a + b in
  hi ← py_rshift res width;
  let carry_out := Z.land hi 1 in
  res ← mask_to_width res width;
  let flags : gmap string pyval := ∅ in
  if signed then
    sa ← py_rshift a (width - 1);
    let a_sign := Z.land sa 1 in
    sb ← py_rshift b (width - 1);
    let b_sign := Z.land sb 1 in
    sr ← py_rshift res (width - 1);
    let result_sign := Z.land sr 1 in
    let overflow := (a_sign =? b_sign) && negb (a_sign =? result_sign) in
    mret (res, <["overflow" := PyBool overflow]> flags)
  else
    mret (res, <["carry_out" := PyInt carry_out]> flags).

(** [d.get(key, False)] *)
Definition dict_get (d : gmap string pyval) (key : string) : pyval :=
  default (PyBool false) (d !! key).

(** Adds the two's complement [~b + 1] of the masked [b]; the flag is
    re-keyed from the addition's dictionary. *)
Definition sub (a b width : Z) (signed : bool)
    : result (Z * gmap string pyval) :=
  a ← mask_to_width a width;
  b ← mask_to_width b width;
  b_complement ← mask_to_width (Z.lnot b + 1) width;
  '(res, add_flags) ← add a b_complement width signed;
  let flags : gmap string pyval := ∅ in
  if signed then
    mret (res, <["overflow" := dict_get add_flags "overflow"]> flags)
  else
    mret (res, <["borrow" := PyBool (negb (truthy (dict_get add_flags "carry_out")))]> flags).

(** ** Multipliers *)

(** The accumulation loop shared by [mul_sequential] and [mul_bit]:
    [if b & (1 << i): product += a << i]. *)
Definition shift_add_body (a b : Z) (i : Z) (product : Z) : result Z :=
  m ← py_lshift 1 i;
  if truthy_int (Z.land b m) then
    p ← py_lshift a i;
    mret (product + p)
  else mret product.

(** The source also saves the raw operands in [a_orig], [b_orig] and
    never reads them. *)
Definition mul_sequential (a b width : Z) (signed : bool)
    : result (Z * gmap string pyval) :=
  '(a, b, result_negative) ←
    (if signed then
       a ← (r ← mask_to_width a width; sign_extend r width);
       b ← (r ← mask_to_width b width; sign_extend r width);
       let result_negative := xorb (a <? 0) (b <? 0) in
       mret (Z.abs a, Z.abs b, result_negative)
     else
       a ← mask_to_width a width;
       b ← mask_to_width b width;
       mret (a, b, false));
  let product := 0 in
  product ← for_range width (shift_add_body a b) product;
  let product := if signed && result_negative then - product else product in
  product ← mask_to_width product (2 * width);
  mret (product, ∅).

(** Unsigned, this is [mul_sequential]; signed, the built-in product
    of the sign-extended operands. *)
Definition mul_booth (a b width : Z) (signed : bool)
    : result (Z * gmap string pyval) :=
  if negb signed then mul_sequential a b width signed
  else
    a_signed ← (r ← mask_to_width a width; sign_extend r width);
    b_signed ← (r ← mask_to_width b width; sign_extend r width);
    let res := a_signed * b_signed in
    p ← mask_to_width res (2 * width);
    mret (p, ∅).

(** The same text as [mul_sequential], with the partial product named. *)
Definition mul_bit (a b width : Z) (signed : bool)
    : result (Z * gmap string pyval) :=
  '(a, b, result_negative) ←
    (if signed then
       a ← (r ← mask_to_width a width; sign_extend r width);
       b ← (r ← mask_to_width b width; sign_extend r width);
       let result_negative := xorb (a <? 0) (b <? 0) in
       mret (Z.abs a, Z.abs b, result_negative)
     else
       a ← mask_to_width a width;
       b ← mask_to_width b width;
       mret (a, b, false));
  let product := 0 in
  product ←
    for_range width
      (λ i product,
         m ← py_lshift 1 i;
         if truthy_int (Z.land b m) then
           partial_product ← py_lshift a i;
           mret (product + partial_product)
         else mret product)
      product;
  let product := if signed && result_negative then - product else product in
  p ← mask_to_width product (2 * width);
  mret (p, ∅).

(** The same text as [mul_booth]. *)
Definition mul_bitpair (a b width : Z) (signed : bool)
    : result (Z * gmap string pyval) :=
  if negb signed then mul_sequential a b width signed
  else
    a_signed ← (r ← mask_to_width a width; sign_extend r width);
    b_signed ← (r ← mask_to_width b width; sign_extend r width);
    let res := a_signed * b_signed in
    p ← mask_to_width res (2 * width);
    mret (p, ∅).

(** ** Dividers *)

(** One iteration of the restoring loop on the register pair [(A, Q)]. *)
Definition restoring_body (b width : Z) (i : Z) (AQ : Z * Z) : result (Z * Z) :=
  let '(A, Q) := AQ in
  A1 ← py_lshift A 1;
  qs ← py_rshift Q (width - 1);
  m ← py_lshift 1 width;
  let A := Z.land (Z.lor A1 (Z.land qs 1)) (m - 1) in
  Q1 ← py_lshift Q 1;
  m ← py_lshift 1 width;
  let Q := Z.land Q1 (m - 1) in
  let temp_A := A - b in
  if temp_A <? 0 then mret (A, Z.land Q (Z.lnot 1))
  else mret (temp_A, Z.lor Q 1).

(** The zero test is on the raw [b], before any masking.  The signed
    path masks both outputs; the unsigned path returns the registers. *)
Definition div_restoring (a b width : Z) (signed : bool) : result (Z * Z) :=
  if b =? 0 then Raise (ValueError "Division by zero")
  else
    '(a, b, result_negative, remainder_negative) ←
      ((if signed then
         a ← (r ← mask_to_width a width; sign_extend r width);
         b ← (r ← mask_to_width b width; sign_extend r width);
         let result_negative := xorb (a <? 0) (b <? 0) in
         let remainder_negative := a <? 0 in
         mret (Z.abs a, Z.abs b, result_negative, remainder_negative)
       else
         a ← mask_to_width a width;
         b ← mask_to_width b width;
         mret (a, b, false, false)) : result (Z * Z * bool * bool));
    '(A, Q) ← for_range width (restoring_body b width) (0, a);
    let quotient : Z := Q in
    let remainder : Z := A in
    if signed then
      let quotient := if (result_negative : bool) then - quotient else quotient in
      let remainder := if (remainder_negative : bool) then - remainder else remainder in
      quotient ← mask_to_width quotient width;
      remainder ← mask_to_width remainder width;
      mret (quotient, remainder)
    else mret (quotient, remainder).

(** Unsigned, this is [div_restoring] on the raw operands; signed, it
    calls unsigned [div_restoring] on the magnitudes and then negates the
    nonzero outputs. *)
Definition div_nonrestoring (a b width : Z) (signed : bool) : result (Z * Z) :=
  if b =? 0 then Raise (ValueError "Division by zero")
  else if negb signed then div_restoring a b width signed
  else
    a ← (r ← mask_to_width a width; sign_extend r width);
    b ← (r ← mask_to_width b width; sign_extend r width);
    let result_negative := xorb (a <? 0) (b <? 0) in
    let remainder_negative := a <? 0 in
    let a := Z.abs a in
    let b := Z.abs b in
    '(q, r) ← div_restoring a b width false;
    q ← (if result_negative && negb (q =? 0) then mask_to_width (- q) width
         else mret q);
    r ← (if remainder_negative && negb (r =? 0) then mask_to_width (- r) width
         else mret r);
    mret (q, r).

(** ** Reference interpretations of a [width]-bit pattern *)

(** The unsigned value of the low [w] bits of [v]. *)
Definition unsigned_val (w v : Z) : Z := v mod 2 ^ w.

(** The two's-complement value of the low [w] bits of [v]. *)
Definition signed_val (w v : Z) : Z :=
  let r := v mod 2 ^ w in
  if r <? 2 ^ (w - 1) then r else r - 2 ^ w.

(** The operand value an operation works on, by signedness mode. *)
Definition operand_val (signed : bool) (w v : Z) : Z :=
  if signed then signed_val w v else unsigned_val w v.

(** The closed forms of what [add] returns: the wrapped sum, the carry
    out of bit [w - 1], and the signed-overflow condition on sign bits. *)
Definition sign_bit (w x : Z) : bool := Z.testbit x (w - 1).

Definition add_result (w a b : Z) : Z :=
  (unsigned_val w a + unsigned_val w b) mod 2 ^ w.

Definition add_carry (w a b : Z) : Z :=
  Z.b2z (Z.testbit (unsigned_val w a + unsigned_val w b) w).

Definition add_overflow (w a b : Z) : bool :=
  eqb (sign_bit w (unsigned_val w a)) (sign_bit w (unsigned_val w b))
  && negb (eqb (sign_bit w (unsigned_val w a)) (sign_bit w (add_result w a b))).

(** Python's [==] on two flag dictionaries: the same keys, and values
    that compare equal. *)
Definition dict_py_eq (d1 d2 : gmap string pyval) : Prop :=
  ∀ k : string,
    match d1 !! k, d2 !! k with
    | Some u, Some v => py_eqb u v = true
    | None, None => True
    | _, _ => False
    end.

(** The key of the one flag each operation reports, by signedness. *)
Definition add_flag_key (signed : bool) : string :=
  if signed then "overflow" else "carry_out".

Definition sub_flag_key (signed : bool) : string :=
  if signed then "overflow" else "borrow".

(** The two division strategies behind the common [divide] contract. *)
Inductive divider : Type :=
  | Restoring
  | NonRestoring.

Definition divide (v : divider) : Z → Z → Z → bool → result (Z * Z) :=
  match v with
  | Restoring => div_restoring
  | NonRestoring => div_nonrestoring
  end.

(** The exception both dividers raise on [b == 0]. *)
Definition DivisionByZero : exn := ValueError "Division by zero".

(** The one signed division whose quotient [2^(w-1)] has no [w]-bit
    two's-complement encoding: the most negative value divided by [-1]. *)
Definition quotient_overflow (signed : bool) (w a b : Z) : Prop :=
  signed = true ∧ signed_val w a = - 2 ^ (w - 1) ∧ signed_val w b = -1.

(** A signed non-restoring division whose divisor is nonzero but has
    all of its low [w] bits clear. *)
Definition masked_zero_divisor (v : divider) (signed : bool) (w b : Z) : Prop :=
  v = NonRestoring ∧ signed = true ∧ signed_val w b = 0.

(** As the design text names it: [twosComplement(b, width) =
    maskToWidth(bitwiseComplement(b) + 1, width)]. *)
Definition twosComplement (b width : Z) : result Z :=
  mask_to_width (Z.lnot b + 1) width.

(** ** Verifier *)











(** ** Reference notions for the further properties *)

(** The exception a shift by a negative count raises. *)
Definition NegativeShift : exn := ValueError "negative shift count".

(** Whether [v] has a [w]-bit two's-complement encoding. *)
Definition fits_signed (w v : Z) : bool :=
  (- 2 ^ (w - 1) <=? v) && (v <? 2 ^ (w - 1)).



(** ** Concrete runs *)

Example add_200_100 : add 200 100 8 false = Ok (44, {["carry_out" := PyInt 1]}).
Proof. vm_compute. reflexivity. Qed.

Example add_100_50_signed :
  add 100 50 8 true = Ok (150, {["overflow" := PyBool true]}).
Proof. vm_compute. reflexivity. Qed.

Example div_13_4 :
  div_restoring 13 4 4 false = Ok (3, 1) ∧ div_nonrestoring 13 4 4 false = Ok (3, 1).
Proof. split; vm_compute; reflexivity. Qed.

Example mul_m5_6 :
  mul_sequential (-5) 6 8 true = Ok (65506, ∅)
  ∧ mul_booth (-5) 6 8 true = Ok (65506, ∅)
  ∧ mul_bit (-5) 6 8 true = Ok (65506, ∅)
  ∧ mul_bitpair (-5) 6 8 true = Ok (65506, ∅).
Proof. repeat split; vm_compute; reflexivity. Qed.

(** ** The monad and the shifts compute *)

Lemma bind_Ok {A B : Type} (x : A) (f : A → result B) : (Ok x ≫= f) = f x.
Proof. reflexivity. Qed.

Lemma bind_Raise {A B : Type} (e : exn) (f : A → result B) :
  (Raise e ≫= f) = Raise e.
Proof. reflexivity. Qed.

Lemma ret_Ok {A : Type} (x : A) : mret x = Ok x.
Proof. reflexivity. Qed.

Lemma py_lshift_ok (x n : Z) : 0 ≤ n → py_lshift x n = Ok (x * 2 ^ n).
Proof.
  intros Hn. unfold py_lshift.
  destruct (Z.ltb_spec n 0) as [Hlt | _]; [lia |].
  now rewrite Z.shiftl_mul_pow2.
Qed.

Lemma py_rshift_ok (x n : Z) : 0 ≤ n → py_rshift x n = Ok (x / 2 ^ n).
Proof.
  intros Hn. unfold py_rshift.
  destruct (Z.ltb_spec n 0) as [Hlt | _]; [lia |].
  now rewrite Z.shiftr_div_pow2.
Qed.

Lemma py_lshift_neg (x n : Z) :
  n < 0 → py_lshift x n = Raise (ValueError "negative shift count").
Proof.
  intros Hn. unfold py_lshift.
  destruct (Z.ltb_spec n 0); [reflexivity | lia].
Qed.

Lemma pow2_pos (n : Z) : 0 ≤ n → 0 < 2 ^ n.
Proof. intros; apply Z.pow_pos_nonneg; lia. Qed.

Lemma pow2_succ (n : Z) : 0 ≤ n → 2 ^ (n + 1) = 2 * 2 ^ n.
Proof. intros. rewrite Z.pow_add_r by lia. change (2 ^ 1) with 2. lia. Qed.

Lemma pow2_pred (w : Z) : 1 ≤ w → 2 ^ w = 2 * 2 ^ (w - 1).
Proof.
  intros. replace w with (w - 1 + 1) at 1 by lia. apply pow2_succ; lia.
Qed.

Lemma land_mask (v w : Z) : 0 ≤ w → Z.land v (1 * 2 ^ w - 1) = v mod 2 ^ w.
Proof.
  intros Hw. rewrite Z.mul_1_l, Z.sub_1_r, <- Z.ones_equiv.
  now apply Z.land_ones.
Qed.

Lemma mask_to_width_ok (v w : Z) :
  0 ≤ w → mask_to_width v w = Ok (v mod 2 ^ w).
Proof.
  intros Hw. unfold mask_to_width.
  rewrite py_lshift_ok, bind_Ok, ret_Ok by lia. cbv beta.
  now rewrite land_mask by lia.
Qed.

(** Runs the straight-line prefix of an operation: every shift and mask
    whose count is provably non-negative, every bind of a returned
    value. *)
Ltac run :=
  repeat (first
    [ rewrite bind_Ok
    | rewrite ret_Ok
    | rewrite py_lshift_ok by lia
    | rewrite py_rshift_ok by lia
    | rewrite mask_to_width_ok by lia ]; cbv beta iota).

(** [v & (1 << i)] is nonzero exactly when bit [i] of [v] is set. *)
Lemma land_pow2 (v i : Z) :
  0 ≤ i → Z.land v (1 * 2 ^ i) = if Z.testbit v i then 2 ^ i else 0.
Proof.
  intros Hi. rewrite Z.mul_1_l. apply Z.bits_inj'. intros n Hn.
  rewrite Z.land_spec, Z.pow2_bits_eqb by lia.
  destruct (Z.eqb_spec i n) as [-> | Hne].
  - destruct (Z.testbit v n); simpl.
    + now rewrite Z.pow2_bits_true.
    + now rewrite Z.bits_0.
  - rewrite andb_false_r. destruct (Z.testbit v i).
    + rewrite Z.pow2_bits_false; [reflexivity | lia].
    + now rewrite Z.bits_0.
Qed.

Lemma truthy_land_pow2 (v i : Z) :
  0 ≤ i → truthy_int (Z.land v (1 * 2 ^ i)) = Z.testbit v i.
Proof.
  intros Hi. rewrite land_pow2 by lia. unfold truthy_int.
  pose proof (pow2_pos i Hi).
  destruct (Z.testbit v i).
  - destruct (Z.eqb_spec (2 ^ i) 0); [lia | reflexivity].
  - reflexivity.
Qed.

(** [(x >> i) & 1] is bit [i] of [x], as an integer. *)
Lemma land_shiftr_1 (x i : Z) :
  0 ≤ i → Z.land (x / 2 ^ i) 1 = Z.b2z (Z.testbit x i).
Proof.
  intros Hi. change (Z.land (x / 2 ^ i) 1) with (Z.land (x / 2 ^ i) (Z.ones 1)).
  rewrite Z.land_ones by lia.
  change (2 ^ 1) with 2. rewrite Z.testbit_spec' by lia. reflexivity.
Qed.

(** The top bit of a [w]-bit pattern. *)
Lemma testbit_top (r w : Z) :
  1 ≤ w → 0 ≤ r < 2 ^ w → Z.testbit r (w - 1) = (2 ^ (w - 1) <=? r).
Proof.
  intros Hw Hr. pose proof (pow2_pred w Hw) as Hp.
  pose proof (pow2_pos (w - 1) ltac:(lia)) as Hpos.
  rewrite Z.testbit_eqb by lia.
  destruct (Z.leb_spec (2 ^ (w - 1)) r) as [Hge | Hlt].
  - replace (r / 2 ^ (w - 1)) with 1; [reflexivity |].
    apply Z.div_unique with (r := r - 2 ^ (w - 1)); lia.
  - rewrite Z.div_small by lia. reflexivity.
Qed.

Lemma sign_extend_ok (r w : Z) :
  1 ≤ w →
  sign_extend r w = Ok (if Z.testbit r (w - 1) then r - 2 ^ w else r).
Proof.
  intros Hw. unfold sign_extend. run.
  rewrite truthy_land_pow2 by lia.
  destruct (Z.testbit r (w - 1)); [| reflexivity].
  f_equal. lia.
Qed.

(** Masking and then sign-extending yields [signed_val]. *)
Lemma to_signed_ok (v w : Z) :
  1 ≤ w → (r ← mask_to_width v w; sign_extend r w) = Ok (signed_val w v).
Proof.
  intros Hw. rewrite mask_to_width_ok, bind_Ok, sign_extend_ok by lia.
  f_equal. unfold signed_val. cbv zeta.
  pose proof (Z.mod_pos_bound v (2 ^ w) (pow2_pos w ltac:(lia))) as Hb.
  rewrite testbit_top by lia.
  destruct (Z.leb_spec (2 ^ (w - 1)) (v mod 2 ^ w));
    destruct (Z.ltb_spec (v mod 2 ^ w) (2 ^ (w - 1))); (reflexivity || lia).
Qed.

Lemma unsigned_val_range (w v : Z) : 0 ≤ w → 0 ≤ unsigned_val w v < 2 ^ w.
Proof. intros. apply Z.mod_pos_bound, pow2_pos. lia. Qed.

Lemma signed_val_range (w v : Z) :
  1 ≤ w → - 2 ^ (w - 1) ≤ signed_val w v < 2 ^ (w - 1).
Proof.
  intros Hw. unfold signed_val. cbv zeta.
  pose proof (unsigned_val_range w v ltac:(lia)) as Hb. unfold unsigned_val in Hb.
  pose proof (pow2_pred w Hw).
  destruct (Z.ltb_spec (v mod 2 ^ w) (2 ^ (w - 1))); lia.
Qed.

(** A signed value is congruent to the pattern it interprets. *)
Lemma signed_val_mod (w v : Z) :
  1 ≤ w → signed_val w v mod 2 ^ w = v mod 2 ^ w.
Proof.
  intros Hw. unfold signed_val. cbv zeta.
  destruct (Z.ltb_spec (v mod 2 ^ w) (2 ^ (w - 1))).
  - apply Z.mod_mod. pose proof (pow2_pos w); lia.
  - rewrite <- (Z.mul_1_l (2 ^ w)) at 2.
    rewrite <- Z.add_opp_r, <- Z.mul_opp_l, Z.mod_add by (pose proof (pow2_pos w); lia).
    apply Z.mod_mod. pose proof (pow2_pos w); lia.
Qed.

(** Reading a value that is already in the signed range. *)
Lemma signed_val_small (w x : Z) :
  1 ≤ w → - 2 ^ (w - 1) ≤ x < 2 ^ (w - 1) → signed_val w x = x.
Proof.
  intros Hw Hx. unfold signed_val. cbv zeta.
  pose proof (pow2_pred w Hw) as Hp.
  destruct (Z.neg_nonneg_cases x) as [Hneg | Hpos].
  - replace (x mod 2 ^ w) with (x + 2 ^ w).
    + destruct (Z.ltb_spec (x + 2 ^ w) (2 ^ (w - 1))); lia.
    + apply Z.mod_unique with (q := -1); lia.
  - rewrite Z.mod_small by lia.
    destruct (Z.ltb_spec x (2 ^ (w - 1))); lia.
Qed.

(** ** BitWidthOps: masking is the mathematical modulo *)

(** C8: for every integer [value], negative ones included, and every
    width [w >= 1], [mask_to_width value w] returns [value mod 2^w] in the
    mathematical (floor) sense: the result [r] lies in [0, 2^w) and
    differs from [value] by a multiple of [2^w]. *)
Theorem mask_to_width_is_modulo (value w : Z) :
  1 ≤ w →
  ∃ r, mask_to_width value w = Ok r
       ∧ r = value mod 2 ^ w
       ∧ 0 ≤ r < 2 ^ w
       ∧ ∃ k, value = k * 2 ^ w + r.
Proof.
  intros Hw. exists (value mod 2 ^ w).
  pose proof (pow2_pos w ltac:(lia)) as Hpos.
  split; [apply mask_to_width_ok; lia |].
  split; [reflexivity |].
  split; [apply Z.mod_pos_bound; lia |].
  exists (value / 2 ^ w).
  rewrite (Z.div_mod value (2 ^ w)) at 1 by lia. lia.
Qed.

Lemma mask_to_width_is_modulo_witness :
  1 ≤ 8 ∧
  ∃ r, mask_to_width (-3) 8 = Ok r
       ∧ r = (-3) mod 2 ^ 8
       ∧ 0 ≤ r < 2 ^ 8
       ∧ ∃ k, -3 = k * 2 ^ 8 + r.
Proof. split; [lia | apply (mask_to_width_is_modulo (-3) 8); lia]. Defined.

(** A negative value is not truncated toward zero: [-3 & 0xff] is 253,
    whereas the truncating remainder of [-3] by 256 is [-3]. *)
Example mask_to_width_negative :
  mask_to_width (-3) 8 = Ok 253 ∧ Z.rem (-3) (2 ^ 8) = -3.
Proof. split; reflexivity. Qed.

(** C7: round-trip law.  For every width [w >= 1] and raw pattern [r] in
    [0, 2^w), masking the sign extension of [r] gives [r] back. *)
Theorem mask_sign_extend_roundtrip (r w : Z) :
  1 ≤ w → 0 ≤ r < 2 ^ w →
  (s ← sign_extend r w; mask_to_width s w) = Ok r.
Proof.
  intros Hw Hr. pose proof (pow2_pos w ltac:(lia)) as Hpos.
  rewrite sign_extend_ok, bind_Ok, mask_to_width_ok by lia. f_equal.
  destruct (Z.testbit r (w - 1)).
  - symmetry. apply Z.mod_unique with (q := -1); lia.
  - apply Z.mod_small; lia.
Qed.

Lemma mask_sign_extend_roundtrip_witness :
  1 ≤ 8 ∧ 0 ≤ 200 < 2 ^ 8 ∧
  (s ← sign_extend 200 8; mask_to_width s 8) = Ok 200.
Proof.
  split; [lia |]. split; [lia |].
  apply (mask_sign_extend_roundtrip 200 8); lia.
Defined.

(** ** AddSub *)

Lemma dict_py_eq_singleton (k : string) (u v : pyval) :
  py_eqb u v = true → dict_py_eq {[k := u]} {[k := v]}.
Proof.
  intros Huv j. destruct (decide (k = j)) as [-> | Hne].
  - now rewrite !lookup_singleton_eq.
  - now rewrite !lookup_singleton_ne.
Qed.

Lemma b2z_eqb (x y : bool) : (Z.b2z x =? Z.b2z y) = eqb x y.
Proof. destruct x, y; reflexivity. Qed.

(** What [add] computes, in closed form. *)
Lemma add_ok (a b w : Z) (signed : bool) :
  1 ≤ w →
  add a b w signed =
  Ok (add_result w a b,
      if signed then {["overflow" := PyBool (add_overflow w a b)]}
      else {["carry_out" := PyInt (add_carry w a b)]}).
Proof.
  intros Hw. unfold add. run.
  unfold add_result, add_overflow, add_carry, sign_bit, unsigned_val.
  destruct signed.
  - run. rewrite !land_shiftr_1, !b2z_eqb by lia. reflexivity.
  - rewrite land_shiftr_1 by lia. reflexivity.
Qed.

(** C3: for every width [w >= 1] and all integers [a], [b], [add]
    returns the unbounded sum of the masked operands, masked to [w] bits.
    Unsigned, its flags hold [carry_out], bit [w] of the unbounded sum;
    signed, they hold [overflow], true when the operands' sign bits
    (bit [w-1]) agree and differ from the result's.  In particular
    [add(200,100,8,False) == (44, {carry_out: True})] and
    [add(100,50,8,False) == (150, {carry_out: False})] under Python's
    [==]. *)
Theorem add_correct (a b w : Z) (signed : bool) :
  1 ≤ w →
  (let am := unsigned_val w a in
   let bm := unsigned_val w b in
   let sum := am + bm in
   let res := sum mod 2 ^ w in
   add a b w signed =
   Ok (res,
       if signed then
         {["overflow" :=
             PyBool (eqb (Z.testbit am (w - 1)) (Z.testbit bm (w - 1))
                     && negb (eqb (Z.testbit am (w - 1))
                                  (Z.testbit res (w - 1))))]}
       else {["carry_out" := PyInt (Z.b2z (Z.testbit sum w))]}))
  ∧ (∃ flags, add 200 100 8 false = Ok (44, flags)
              ∧ dict_py_eq flags {["carry_out" := PyBool true]})
  ∧ (∃ flags, add 100 50 8 false = Ok (150, flags)
              ∧ dict_py_eq flags {["carry_out" := PyBool false]}).
Proof.
  intros Hw. split; [| split].
  - cbv zeta. now rewrite add_ok by lia.
  - exists {["carry_out" := PyInt 1]}. split; [vm_compute; reflexivity |].
    apply dict_py_eq_singleton. reflexivity.
  - exists {["carry_out" := PyInt 0]}. split; [vm_compute; reflexivity |].
    apply dict_py_eq_singleton. reflexivity.
Qed.

Lemma add_correct_witness :
  1 ≤ 8 ∧ add 100 50 8 true = Ok (150, {["overflow" := PyBool true]}).
Proof.
  split; [lia |].
  exact (proj1 (add_correct 100 50 8 true ltac:(lia))).
Defined.

(** The single key [add] and [sub] store in their flag dictionaries. *)
Lemma sub_ok (a b w : Z) (signed : bool) :
  1 ≤ w →
  sub a b w signed =
  Ok (add_result w a (- b),
      if signed then {["overflow" := PyBool (add_overflow w a (- b))]}
      else {["borrow" := PyBool (negb (truthy_int (add_carry w a (- b))))]}).
Proof.
  intros Hw. pose proof (pow2_pos w ltac:(lia)) as Hpos.
  unfold sub. run. rewrite add_ok by lia. run.
  assert (Ha : unsigned_val w (a mod 2 ^ w) = unsigned_val w a)
    by (unfold unsigned_val; apply Z.mod_mod; lia).
  assert (Hb : unsigned_val w ((Z.lnot (b mod 2 ^ w) + 1) mod 2 ^ w)
               = unsigned_val w (- b)).
  { unfold unsigned_val. rewrite Z.mod_mod by lia.
    replace (Z.lnot (b mod 2 ^ w) + 1) with (- (b mod 2 ^ w))
      by (unfold Z.lnot; lia).
    rewrite <- (Z.sub_0_l (b mod 2 ^ w)), <- (Z.sub_0_l b).
    now rewrite Zminus_mod_idemp_r. }
  unfold add_result, add_overflow, add_carry, add_result. rewrite Ha, Hb.
  destruct signed; unfold dict_get.
  - now rewrite lookup_singleton_eq.
  - now rewrite lookup_singleton_eq.
Qed.

(** C4, as stated, fails for unsigned [sub]: its one flag is [borrow],
    and [carry_out] is not among its flags. *)
Lemma sub_unsigned_flag_is_borrow :
  ∃ res flags,
    sub 5 3 8 false = Ok (res, flags)
    ∧ dom flags = {["borrow"]}
    ∧ flags !! "carry_out" = None
    ∧ dom flags ≠ {[add_flag_key false]}.
Proof.
  exists 2, {["borrow" := PyBool false]}.
  split; [vm_compute; reflexivity |].
  split; [apply dom_singleton_L |].
  split; [reflexivity |].
  rewrite dom_singleton_L. intros Heq.
  assert (Hin : "borrow" ∈ ({[add_flag_key false]} : gset string))
    by (rewrite <- Heq; now apply elem_of_singleton).
  apply elem_of_singleton in Hin. discriminate Hin.
Qed.

(** C4 (amended): for every width [w >= 1], either signedness and all
    operands, [add] and [sub] each return a dictionary with exactly one
    flag.  For [add] it is [carry_out] when unsigned and [overflow] when
    signed; for [sub] it is [borrow] when unsigned and [overflow] when
    signed. *)
Theorem add_sub_single_flag (a b w : Z) (signed : bool) :
  1 ≤ w →
  (∃ res flags, add a b w signed = Ok (res, flags)
                ∧ dom flags = {[add_flag_key signed]})
  ∧ (∃ res flags, sub a b w signed = Ok (res, flags)
                  ∧ dom flags = {[sub_flag_key signed]}).
Proof.
  intros Hw. split.
  - eexists _, _. split; [apply add_ok; lia |].
    destruct signed; apply dom_singleton_L.
  - eexists _, _. split; [apply sub_ok; lia |].
    destruct signed; apply dom_singleton_L.
Qed.

Lemma add_sub_single_flag_witness :
  1 ≤ 8 ∧
  (∃ res flags, add 5 3 8 false = Ok (res, flags)
                ∧ dom flags = {[add_flag_key false]})
  ∧ (∃ res flags, sub 5 3 8 false = Ok (res, flags)
                  ∧ dom flags = {[sub_flag_key false]}).
Proof. split; [lia | apply (add_sub_single_flag 5 3 8 false); lia]. Defined.

Lemma twosComplement_ok (b w : Z) :
  1 ≤ w → twosComplement b w = Ok ((- b) mod 2 ^ w).
Proof.
  intros Hw. unfold twosComplement. run. do 2 f_equal. unfold Z.lnot. lia.
Qed.

(** C5: for every width [w >= 1], either signedness and all integers
    [a], [b], [sub a b w signed] returns the result value of
    [add a (twosComplement b w) w signed].  Unsigned, its [borrow] flag
    is the negation of that addition's [carry_out]; signed, its
    [overflow] flag is that addition's [overflow].  In particular
    [sub(-128, 1, 8, True)] reports [overflow] true. *)
Theorem sub_via_add (a b w : Z) (signed : bool) :
  1 ≤ w →
  (∃ tc res add_flags flags,
     twosComplement b w = Ok tc
     ∧ add a tc w signed = Ok (res, add_flags)
     ∧ sub a b w signed = Ok (res, flags)
     ∧ if signed then
         ∃ o, add_flags !! "overflow" = Some o
              ∧ flags !! "overflow" = Some o
       else
         ∃ c, add_flags !! "carry_out" = Some c
              ∧ flags !! "borrow" = Some (PyBool (negb (truthy c))))
  ∧ (∃ res flags, sub (-128) 1 8 true = Ok (res, flags)
                  ∧ flags !! "overflow" = Some (PyBool true)).
Proof.
  intros Hw. pose proof (pow2_pos w ltac:(lia)) as Hpos. split.
  - eexists _, _, _, _.
    split; [apply twosComplement_ok; lia |].
    split; [apply add_ok; lia |].
    assert (Htc : unsigned_val w ((- b) mod 2 ^ w) = unsigned_val w (- b))
      by (unfold unsigned_val; apply Z.mod_mod; lia).
    split.
    + rewrite sub_ok by lia. unfold add_result. rewrite Htc. reflexivity.
    + unfold add_overflow, add_carry, add_result. rewrite Htc.
      destruct signed.
      * eexists. split; apply lookup_singleton_eq.
      * eexists. split; apply lookup_singleton_eq.
  - exists 127, {["overflow" := PyBool true]}.
    split; [vm_compute; reflexivity | reflexivity].
Qed.

Lemma sub_via_add_witness :
  1 ≤ 8 ∧
  ∃ tc res add_flags flags,
    twosComplement 1 8 = Ok tc
    ∧ add (-128) tc 8 true = Ok (res, add_flags)
    ∧ sub (-128) 1 8 true = Ok (res, flags)
    ∧ ∃ o, add_flags !! "overflow" = Some o ∧ flags !! "overflow" = Some o.
Proof.
  split; [lia |]. exact (proj1 (sub_via_add (-128) 1 8 true ltac:(lia))).
Defined.

(** ** ShiftOps *)

Lemma pow2_split (w s : Z) : 0 ≤ s ≤ w → 2 ^ w = 2 ^ s * 2 ^ (w - s).
Proof. intros. rewrite <- Z.pow_add_r by lia. f_equal. lia. Qed.

(** The shifted pattern and the fill mask have no bit in common. *)
Lemma shifted_fill_disjoint (raw s w : Z) :
  0 ≤ s ≤ w → 0 ≤ raw < 2 ^ w →
  Z.land (raw / 2 ^ s) ((1 * 2 ^ s - 1) * 2 ^ (w - s)) = 0.
Proof.
  intros Hs Hr. apply Z.bits_inj'. intros i Hi.
  rewrite Z.land_spec, Z.bits_0, Z.div_pow2_bits by lia.
  destruct (Z.lt_ge_cases i (w - s)) as [Hlo | Hhi].
  - rewrite Z.mul_pow2_bits_low by lia. apply andb_false_r.
  - destruct (Z.eq_dec raw 0) as [-> | Hnz]; [now rewrite Z.bits_0 |].
    rewrite (Z.bits_above_log2 raw (i + s)); [reflexivity | lia |].
    apply Z.lt_le_trans with w; [apply Z.log2_lt_pow2; lia | lia].
Qed.

Lemma lor_disjoint (x y : Z) : Z.land x y = 0 → Z.lor x y = x + y.
Proof.
  intros H. rewrite <- Z.lxor_lor by assumption.
  symmetry. now apply Z.add_nocarry_lxor.
Qed.

(** The sign-filling branch, in closed form. *)
Lemma shift_fill_closed (raw s w : Z) :
  0 ≤ s ≤ w → 0 ≤ raw < 2 ^ w →
  Z.land (Z.lor (raw / 2 ^ s) ((1 * 2 ^ s - 1) * 2 ^ (w - s))) (1 * 2 ^ w - 1)
  = raw / 2 ^ s + (2 ^ w - 2 ^ (w - s)).
Proof.
  intros Hs Hr.
  pose proof (pow2_pos s ltac:(lia)) as Hps.
  pose proof (pow2_pos (w - s) ltac:(lia)) as Hpd.
  pose proof (pow2_split w s Hs) as Hsplit.
  rewrite land_mask, lor_disjoint by (lia || now apply shifted_fill_disjoint).
  assert (Hq : 0 ≤ raw / 2 ^ s < 2 ^ (w - s)).
  { split; [apply Z.div_pos; lia |].
    apply Z.div_lt_upper_bound; lia. }
  rewrite Z.mod_small by nia. nia.
Qed.

(** C9: for every width [w >= 1], raw pattern in [0, 2^w) and shift in
    [0, w]: a zero shift is the identity; with the sign bit (bit [w-1])
    clear the result is the logical shift [raw >> shift]; with it set the
    result is [raw >> shift] with the top [shift] bits set to 1 and no bit
    at or above [w]; shifting by [w] with the sign bit set gives the
    all-ones pattern [2^w - 1]. *)
Theorem arithmetic_right_shift_correct (raw shift w : Z) :
  1 ≤ w → 0 ≤ raw < 2 ^ w → 0 ≤ shift ≤ w →
  arithmetic_right_shift raw 0 w = Ok raw
  ∧ (∃ r, arithmetic_right_shift raw shift w = Ok r
          ∧ if Z.testbit raw (w - 1) then
              0 ≤ r < 2 ^ w
              ∧ r = Z.shiftr raw shift + (2 ^ w - 2 ^ (w - shift))
              ∧ ∀ i, 0 ≤ i →
                   Z.testbit r i =
                   if i <? w - shift then Z.testbit (Z.shiftr raw shift) i
                   else i <? w
            else r = Z.shiftr raw shift)
  ∧ (if Z.testbit raw (w - 1) then
       arithmetic_right_shift raw w w = Ok (2 ^ w - 1)
     else arithmetic_right_shift raw w w = Ok 0).
Proof.
  intros Hw Hr Hs.
  pose proof (pow2_pos w ltac:(lia)) as Hpw.
  assert (Hfill : ∀ s, 0 < s ≤ w →
            arithmetic_right_shift raw s w =
            Ok (if Z.testbit raw (w - 1)
                then raw / 2 ^ s + (2 ^ w - 2 ^ (w - s))
                else raw / 2 ^ s)).
  { intros s Hs'. unfold arithmetic_right_shift.
    destruct (Z.eqb_spec s 0); [lia |]. run.
    rewrite truthy_land_pow2 by lia.
    destruct (Z.testbit raw (w - 1)); run; [| reflexivity].
    now rewrite shift_fill_closed by lia. }
  split; [reflexivity |]. split.
  - destruct (Z.eq_dec shift 0) as [-> | Hnz].
    + exists raw. split; [reflexivity |].
      rewrite Z.shiftr_0_r, Z.sub_0_r.
      destruct (Z.testbit raw (w - 1)) eqn:Hsign; [| reflexivity].
      split; [lia |]. split; [lia |]. intros i Hi.
      destruct (Z.ltb_spec i w); [reflexivity |].
      apply Z.bits_above_log2; [lia |].
      destruct (Z.eq_dec raw 0) as [-> | Hr0]; [simpl; lia |].
      apply Z.lt_le_trans with w; [apply Z.log2_lt_pow2; lia | lia].
    + eexists. split; [apply Hfill; lia |].
      rewrite Z.shiftr_div_pow2 by lia.
      destruct (Z.testbit raw (w - 1)); [| reflexivity].
      pose proof (pow2_pos shift ltac:(lia)) as Hps.
      pose proof (pow2_pos (w - shift) ltac:(lia)) as Hpd.
      pose proof (pow2_split w shift ltac:(lia)) as Hsplit.
      assert (Hq : 0 ≤ raw / 2 ^ shift < 2 ^ (w - shift)).
      { split; [apply Z.div_pos; lia |].
        apply Z.div_lt_upper_bound; lia. }
      split; [nia |]. split; [reflexivity |]. intros i Hi.
      rewrite <- shift_fill_closed by lia.
      rewrite !Z.mul_1_l, !Z.sub_1_r, <- !Z.ones_equiv.
      rewrite Z.land_spec, Z.lor_spec, (Z.testbit_ones_nonneg w) by lia.
      destruct (Z.ltb_spec i (w - shift)) as [Hlo | Hhi].
      * rewrite Z.mul_pow2_bits_low, orb_false_r by lia.
        destruct (Z.ltb_spec i w); [apply andb_true_r | lia].
      * rewrite Z.mul_pow2_bits, Z.testbit_ones_nonneg by lia.
        destruct (Z.ltb_spec i w) as [Hiw | Hiw]; [| apply andb_false_r].
        destruct (Z.ltb_spec (i - (w - shift)) shift); [| lia].
        now rewrite orb_true_r.
  - rewrite Hfill by lia. rewrite Z.div_small, Z.sub_diag by lia.
    destruct (Z.testbit raw (w - 1)); [f_equal; simpl; lia | reflexivity].
Qed.

Lemma arithmetic_right_shift_correct_witness :
  1 ≤ 8 ∧ 0 ≤ 200 < 2 ^ 8 ∧ 0 ≤ 3 ≤ 8 ∧
  arithmetic_right_shift 200 3 8 = Ok 249 ∧
  arithmetic_right_shift 200 8 8 = Ok 255.
Proof.
  split; [lia |]. split; [lia |]. split; [lia |].
  destruct (arithmetic_right_shift_correct 200 3 8 ltac:(lia) ltac:(lia) ltac:(lia))
    as (_ & (r & Hrun & Hsign) & Hall).
  split; [| exact Hall].
  rewrite Hrun. f_equal. exact (proj1 (proj2 Hsign)).
Defined.

(** ** Multipliers *)

Lemma shift_add_body_ok (a b i product : Z) :
  0 ≤ i →
  shift_add_body a b i product
  = Ok (product + Z.b2z (Z.testbit b i) * (a * 2 ^ i)).
Proof.
  intros Hi. unfold shift_add_body. run.
  rewrite truthy_land_pow2 by lia.
  destruct (Z.testbit b i); run; f_equal; simpl Z.b2z; lia.
Qed.

(** The shift-add loop started at bit [i] adds [a] times the next [n]
    bits of [b], weighted from [2^i]. *)
Lemma shift_add_loop (a b : Z) (n : nat) :
  ∀ i acc, 0 ≤ i →
    for_loop n i (shift_add_body a b) acc
    = Ok (acc + a * ((b / 2 ^ i) mod 2 ^ Z.of_nat n) * 2 ^ i).
Proof.
  induction n as [| n IH]; intros i acc Hi.
  - simpl. rewrite Z.mod_1_r. f_equal. lia.
  - cbn [for_loop]. rewrite shift_add_body_ok by lia. run.
    pose proof (Z.testbit_spec' b i Hi) as Hbit.
    pose proof (pow2_pos i Hi) as Hpi.
    pose proof (pow2_pos (Z.of_nat n) ltac:(lia)) as Hpn.
    assert (Hsplit : (b / 2 ^ i) mod 2 ^ Z.of_nat (S n)
                     = (b / 2 ^ i) mod 2
                       + 2 * ((b / 2 ^ (i + 1)) mod 2 ^ Z.of_nat n)).
    { rewrite Nat2Z.inj_succ, <- Z.add_1_r, pow2_succ, pow2_succ by lia.
      rewrite Z.rem_mul_r by lia.
      rewrite Z.div_div by lia. now rewrite (Z.mul_comm (2 ^ i) 2). }
    rewrite Hsplit, <- Hbit, IH, pow2_succ by lia.
    f_equal. ring.
Qed.

Lemma shift_add_range (a b w : Z) :
  0 ≤ w → 0 ≤ b < 2 ^ w →
  for_range w (shift_add_body a b) 0 = Ok (a * b).
Proof.
  intros Hw Hb. unfold for_range.
  rewrite shift_add_loop, Z2Nat.id by lia.
  change (2 ^ 0) with 1. rewrite Z.div_1_r, Z.mod_small by lia.
  f_equal. ring.
Qed.

Lemma abs_mul_signed (x y : Z) :
  (if xorb (x <? 0) (y <? 0) then - (Z.abs x * Z.abs y)
   else Z.abs x * Z.abs y) = x * y.
Proof.
  destruct (Z.ltb_spec x 0), (Z.ltb_spec y 0); simpl; nia.
Qed.

Lemma mul_bit_unfold (a b w : Z) (signed : bool) :
  mul_bit a b w signed = mul_sequential a b w signed.
Proof. reflexivity. Qed.

Lemma mul_sequential_ok (a b w : Z) (signed : bool) :
  1 ≤ w →
  mul_sequential a b w signed
  = Ok ((operand_val signed w a * operand_val signed w b) mod 2 ^ (2 * w), ∅).
Proof.
  intros Hw. unfold mul_sequential, operand_val.
  pose proof (pow2_pred w Hw) as Hp.
  pose proof (pow2_pos (w - 1) ltac:(lia)) as Hpos.
  destruct signed.
  - rewrite !to_signed_ok by lia. run.
    pose proof (signed_val_range w b Hw) as Hb.
    rewrite shift_add_range by lia. run.
    cbn [andb]. now rewrite abs_mul_signed.
  - run. pose proof (unsigned_val_range w b ltac:(lia)) as Hb.
    rewrite shift_add_range by (lia || exact Hb). run. reflexivity.
Qed.

Lemma mul_booth_ok (a b w : Z) (signed : bool) :
  1 ≤ w →
  mul_booth a b w signed
  = Ok ((operand_val signed w a * operand_val signed w b) mod 2 ^ (2 * w), ∅).
Proof.
  intros Hw. unfold mul_booth. destruct signed; cbn [negb].
  - rewrite !to_signed_ok by lia. run. reflexivity.
  - now apply mul_sequential_ok.
Qed.

Lemma mul_bitpair_unfold (a b w : Z) (signed : bool) :
  mul_bitpair a b w signed = mul_booth a b w signed.
Proof. reflexivity. Qed.

(** C2: for every width [w >= 1], either signedness and all integers
    [a], [b], the four multipliers [mul_sequential], [mul_booth],
    [mul_bit] and [mul_bitpair] return the same value, and that value is
    the product of the operands' [w]-bit interpretations (unsigned, or
    two's complement when signed) reduced modulo [2^(2w)], with an empty
    flag dictionary. *)
Theorem multipliers_agree (a b w : Z) (signed : bool) :
  1 ≤ w →
  let reference :=
    (operand_val signed w a * operand_val signed w b) mod 2 ^ (2 * w) in
  mul_sequential a b w signed = Ok (reference, ∅)
  ∧ mul_booth a b w signed = Ok (reference, ∅)
  ∧ mul_bit a b w signed = Ok (reference, ∅)
  ∧ mul_bitpair a b w signed = Ok (reference, ∅).
Proof.
  intros Hw reference. subst reference.
  split; [exact (mul_sequential_ok a b w signed Hw) |].
  split; [exact (mul_booth_ok a b w signed Hw) |].
  split.
  - etransitivity; [apply mul_bit_unfold | exact (mul_sequential_ok a b w signed Hw)].
  - etransitivity; [apply mul_bitpair_unfold | exact (mul_booth_ok a b w signed Hw)].
Qed.

Lemma multipliers_agree_witness :
  1 ≤ 8 ∧
  mul_sequential (-5) 6 8 true = Ok (65506, ∅)
  ∧ mul_booth (-5) 6 8 true = Ok (65506, ∅)
  ∧ mul_bit (-5) 6 8 true = Ok (65506, ∅)
  ∧ mul_bitpair (-5) 6 8 true = Ok (65506, ∅).
Proof. split; [lia | exact (multipliers_agree (-5) 6 8 true ltac:(lia))]. Defined.

(** ** Dividers *)

Lemma land_1_mod2 (x : Z) : Z.land x 1 = x mod 2.
Proof. exact (Z.land_ones x 1 ltac:(lia)). Qed.

Lemma land_lnot_1_even (x : Z) : x mod 2 = 0 → Z.land x (Z.lnot 1) = x.
Proof.
  intros Hx. rewrite <- Z.ldiff_land.
  change 1 with (Z.ones 1). rewrite Z.ldiff_ones_r by lia.
  rewrite Z.shiftr_div_pow2, Z.shiftl_mul_pow2 by lia.
  change (2 ^ 1) with 2.
  pose proof (Z.div_mod x 2 ltac:(lia)). lia.
Qed.

Lemma lor_1_even (x : Z) : x mod 2 = 0 → Z.lor x 1 = x + 1.
Proof.
  intros Hx. apply lor_disjoint. now rewrite land_1_mod2.
Qed.

Lemma double_mod_even (x w : Z) : 1 ≤ w → ((2 * x) mod 2 ^ w) mod 2 = 0.
Proof.
  intros Hw. pose proof (pow2_pos (w - 1) ltac:(lia)) as Hpos.
  rewrite (pow2_pred w Hw), Z.mul_mod_distr_l by lia.
  rewrite Z.mul_comm. apply Z.mod_mul. lia.
Qed.

(** One restoring step, in arithmetic form: the pair is shifted left,
    the top bit of [Q] entering [A], and the divisor is subtracted from
    [A] when it fits. *)
Lemma restoring_body_ok (b w i A Q : Z) :
  1 ≤ w → 0 ≤ Q < 2 ^ w → 0 ≤ A < 2 ^ (w - 1) →
  restoring_body b w i (A, Q)
  = Ok (if 2 * A + Q / 2 ^ (w - 1) - b <? 0
        then (2 * A + Q / 2 ^ (w - 1), (2 * Q) mod 2 ^ w)
        else (2 * A + Q / 2 ^ (w - 1) - b, (2 * Q) mod 2 ^ w + 1)).
Proof.
  intros Hw HQ HA. unfold restoring_body. run.
  pose proof (pow2_pred w Hw) as Hp.
  pose proof (pow2_pos (w - 1) ltac:(lia)) as Hpos.
  assert (Htop : 0 ≤ Q / 2 ^ (w - 1) < 2).
  { split; [apply Z.div_pos; lia | apply Z.div_lt_upper_bound; lia]. }
  change (2 ^ 1) with 2. rewrite !land_mask by lia.
  assert (Hbit : Z.land (Q / 2 ^ (w - 1)) 1 = Q / 2 ^ (w - 1)).
  { rewrite land_1_mod2. apply Z.mod_small. lia. }
  rewrite Hbit.
  assert (Hlor : Z.lor (A * 2) (Q / 2 ^ (w - 1)) = 2 * A + Q / 2 ^ (w - 1)).
  { rewrite lor_disjoint; [lia |].
    rewrite <- Hbit, Z.land_assoc, (Z.land_comm (A * 2)), <- Z.land_assoc.
    rewrite (land_1_mod2 (A * 2)), Z.mod_mul by lia. apply Z.land_0_r. }
  rewrite Hlor, (Z.mod_small (2 * A + Q / 2 ^ (w - 1))) by lia.
  rewrite (Z.mul_comm Q 2).
  pose proof (double_mod_even Q w Hw) as Heven.
  destruct (Z.ltb_spec (2 * A + Q / 2 ^ (w - 1) - b) 0); run.
  - now rewrite land_lnot_1_even.
  - now rewrite lor_1_even.
Qed.

(** The restoring loop, [k] iterations in and [n] to go.  The dividend
    is [hi * 2^n + lo]: its top [k] bits [hi] have been consumed, with
    partial quotient [q] and partial remainder [A]; its low bits [lo]
    still sit in the top of the [Q] register, above [q]. *)
Lemma restoring_loop (b w : Z) (n : nat) :
  ∀ (i k hi lo q A : Z),
    0 ≤ k → k + Z.of_nat n = w → 1 ≤ w → 0 ≤ b →
    0 ≤ lo < 2 ^ (w - k) → 0 ≤ q < 2 ^ k → hi < 2 ^ k →
    0 ≤ A → A + b * q = hi → (0 < b → A < b) →
    ∃ A' Q',
      for_loop n i (restoring_body b w) (A, lo * 2 ^ k + q) = Ok (A', Q')
      ∧ A' + b * Q' = hi * 2 ^ Z.of_nat n + lo
      ∧ 0 ≤ A' ∧ (0 < b → A' < b) ∧ 0 ≤ Q' < 2 ^ w.
Proof.
  induction n as [| n IH]; intros i k hi lo q A Hk Hkn Hw Hb Hlo Hq Hhi HA Hinv Hlt.
  - simpl in Hkn. replace (w - k) with 0 in Hlo by lia.
    change (2 ^ 0) with 1 in Hlo. assert (lo = 0) as -> by lia.
    assert (k = w) as -> by lia.
    exists A, q. cbn [for_loop Z.of_nat]. change (2 ^ 0) with 1.
    rewrite Z.mul_0_l, Z.add_0_l.
    repeat split; (lia || assumption).
  - cbn [for_loop]. rewrite Nat2Z.inj_succ in *.
    set (m := Z.of_nat n) in *.
    assert (Hm : 0 ≤ m) by (subst m; lia).
    pose proof (pow2_pos k Hk) as Hpk.
    pose proof (pow2_pos m Hm) as Hpm.
    assert (Hwk : 2 ^ (w - k) = 2 * 2 ^ m)
      by (replace (w - k) with (m + 1) by lia; now apply pow2_succ).
    assert (Hw1 : 2 ^ (w - 1) = 2 ^ m * 2 ^ k)
      by (rewrite <- Z.pow_add_r by lia; f_equal; lia).
    assert (Hww : 2 ^ w = 2 * (2 ^ m * 2 ^ k))
      by (rewrite <- Hw1; now apply pow2_pred).
    set (bit := lo / 2 ^ m). set (lo' := lo mod 2 ^ m).
    assert (Hdec : lo = 2 ^ m * bit + lo') by (apply Z.div_mod; lia).
    assert (Hlo' : 0 ≤ lo' < 2 ^ m) by (apply Z.mod_pos_bound; lia).
    assert (Hbit : 0 ≤ bit < 2).
    { split; [apply Z.div_pos; lia | apply Z.div_lt_upper_bound; lia]. }
    assert (Hrest : 0 ≤ lo' * 2 ^ k + q < 2 ^ m * 2 ^ k) by nia.
    assert (Htop : (lo * 2 ^ k + q) / 2 ^ (w - 1) = bit).
    { symmetry. apply Z.div_unique with (r := lo' * 2 ^ k + q).
      - left. rewrite Hw1. exact Hrest.
      - rewrite Hw1, Hdec. ring. }
    assert (Hdbl : (2 * (lo * 2 ^ k + q)) mod 2 ^ w
                   = lo' * 2 ^ (k + 1) + 2 * q).
    { symmetry. apply Z.mod_unique with (q := bit).
      - left. rewrite Hww, pow2_succ by lia. nia.
      - rewrite Hww, pow2_succ, Hdec by lia. ring. }
    assert (HAk : A < 2 ^ k) by nia.
    rewrite restoring_body_ok by (rewrite ?Hw1, ?Hww; nia).
    rewrite Htop, Hdbl.
    assert (Hgoal : (2 * hi + bit) * 2 ^ m + lo' = hi * 2 ^ Z.succ m + lo).
    { rewrite <- Z.add_1_r, pow2_succ, Hdec by lia. ring. }
    rewrite <- Hgoal.
    destruct (Z.ltb_spec (2 * A + bit - b) 0) as [Hneg | Hge]; run.
    + apply (IH (i + 1) (k + 1) (2 * hi + bit) lo' (2 * q) (2 * A + bit));
        rewrite ?pow2_succ by lia;
        try replace (w - (k + 1)) with m by lia; try lia.
    + replace (lo' * 2 ^ (k + 1) + 2 * q + 1)
        with (lo' * 2 ^ (k + 1) + (2 * q + 1)) by ring.
      apply (IH (i + 1) (k + 1) (2 * hi + bit) lo' (2 * q + 1) (2 * A + bit - b));
        rewrite ?pow2_succ by lia;
        try replace (w - (k + 1)) with m by lia; try lia.
Qed.

(** The whole restoring loop on a [w]-bit dividend. *)
Lemma restoring_range (a b w : Z) :
  1 ≤ w → 0 ≤ a < 2 ^ w → 0 ≤ b →
  ∃ A Q,
    for_range w (restoring_body b w) (0, a) = Ok (A, Q)
    ∧ a = Q * b + A ∧ 0 ≤ A ∧ (0 < b → A < b) ∧ 0 ≤ Q < 2 ^ w.
Proof.
  intros Hw Ha Hb. unfold for_range.
  destruct (restoring_loop b w (Z.to_nat w) 0 0 0 a 0 0) as (A & Q & Hrun & Hid & HA & Hlt & HQ);
    rewrite ?Z2Nat.id, ?Z.sub_0_r by lia; change (2 ^ 0) with 1; try lia.
  exists A, Q. rewrite Z2Nat.id in Hid by lia.
  change (2 ^ 0) with 1 in Hrun. rewrite Z.mul_1_r, Z.add_0_r in Hrun.
  repeat split; (assumption || lia).
Qed.

Lemma div_restoring_zero (a w : Z) (signed : bool) :
  div_restoring a 0 w signed = Raise DivisionByZero.
Proof. reflexivity. Qed.

Lemma div_nonrestoring_zero (a w : Z) (signed : bool) :
  div_nonrestoring a 0 w signed = Raise DivisionByZero.
Proof. reflexivity. Qed.

(** Unsigned restoring division of the masked operands. *)
Lemma div_restoring_unsigned (a b w : Z) :
  1 ≤ w → b ≠ 0 →
  ∃ q r,
    div_restoring a b w false = Ok (q, r)
    ∧ unsigned_val w a = q * unsigned_val w b + r
    ∧ 0 ≤ r ∧ (0 < unsigned_val w b → r < unsigned_val w b)
    ∧ 0 ≤ q < 2 ^ w.
Proof.
  intros Hw Hb. unfold div_restoring.
  destruct (Z.eqb_spec b 0) as [| _]; [contradiction |]. run.
  pose proof (unsigned_val_range w a ltac:(lia)) as Ha.
  pose proof (unsigned_val_range w b ltac:(lia)) as Hbm.
  destruct (restoring_range (unsigned_val w a) (unsigned_val w b) w)
    as (A & Q & Hrun & Hid & HA & Hlt & HQ); try lia.
  unfold unsigned_val in *. rewrite Hrun. run.
  exists Q, A. repeat split; (assumption || lia).
Qed.

(** Signed restoring division: the loop runs on the magnitudes, and the
    signs are put back before masking. *)
Lemma div_restoring_signed (a b w : Z) :
  1 ≤ w → b ≠ 0 →
  ∃ q0 r0,
    div_restoring a b w true
    = Ok ((if xorb (signed_val w a <? 0) (signed_val w b <? 0)
           then - q0 else q0) mod 2 ^ w,
          (if signed_val w a <? 0 then - r0 else r0) mod 2 ^ w)
    ∧ Z.abs (signed_val w a) = q0 * Z.abs (signed_val w b) + r0
    ∧ 0 ≤ r0 ∧ (0 < Z.abs (signed_val w b) → r0 < Z.abs (signed_val w b))
    ∧ 0 ≤ q0 < 2 ^ w.
Proof.
  intros Hw Hb. unfold div_restoring.
  destruct (Z.eqb_spec b 0) as [| _]; [contradiction |].
  rewrite !to_signed_ok by lia. run.
  pose proof (signed_val_range w a Hw) as Ha.
  pose proof (pow2_pred w Hw) as Hp.
  destruct (restoring_range (Z.abs (signed_val w a)) (Z.abs (signed_val w b)) w)
    as (A & Q & Hrun & Hid & HA & Hlt & HQ); try lia.
  rewrite Hrun. run.
  exists Q, A. repeat split; (assumption || lia).
Qed.

Lemma signed_val_congr (w x y : Z) :
  x mod 2 ^ w = y mod 2 ^ w → signed_val w x = signed_val w y.
Proof. intros H. unfold signed_val. now rewrite H. Qed.

(** Putting the signs back on a magnitude division gives the signed
    identity, as long as the quotient fits in [w] bits. *)
Lemma signed_identity (w x y q0 r0 q r : Z) :
  1 ≤ w →
  - 2 ^ (w - 1) ≤ x < 2 ^ (w - 1) → - 2 ^ (w - 1) ≤ y < 2 ^ (w - 1) →
  Z.abs x = q0 * Z.abs y + r0 → 0 ≤ r0 → 0 ≤ q0 →
  (0 < Z.abs y → r0 < Z.abs y) →
  ¬ (x = - 2 ^ (w - 1) ∧ y = -1) →
  q mod 2 ^ w = (if xorb (x <? 0) (y <? 0) then - q0 else q0) mod 2 ^ w →
  r mod 2 ^ w = (if x <? 0 then - r0 else r0) mod 2 ^ w →
  x = signed_val w q * y + signed_val w r.
Proof.
  intros Hw Hx Hy Hdiv Hr0 Hq0 Hlt Hno Hq Hr.
  rewrite (signed_val_congr _ _ _ Hq), (signed_val_congr _ _ _ Hr).
  pose proof (pow2_pos (w - 1) ltac:(lia)) as Hpos.
  destruct (Z.eq_dec y 0) as [-> | Hy0].
  - rewrite Z.mul_0_r, Z.add_0_l. simpl Z.abs in Hdiv.
    rewrite signed_val_small by (destruct (Z.ltb_spec x 0); lia).
    destruct (Z.ltb_spec x 0); lia.
  - assert (Hqx : q0 ≤ Z.abs x) by nia.
    assert (Hqlt : xorb (x <? 0) (y <? 0) = false → q0 < 2 ^ (w - 1)).
    { intros Hsame. destruct (Z.eq_dec q0 (2 ^ (w - 1))) as [Heq | Hne]; [| lia].
      exfalso. apply Hno.
      destruct (Z.ltb_spec x 0), (Z.ltb_spec y 0); try discriminate Hsame; nia. }
    assert (Hrq : - 2 ^ (w - 1)
                  ≤ (if xorb (x <? 0) (y <? 0) then - q0 else q0)
                  < 2 ^ (w - 1)).
    { destruct (xorb (x <? 0) (y <? 0)); [lia |].
      specialize (Hqlt eq_refl). lia. }
    assert (Hrr : - 2 ^ (w - 1) ≤ (if x <? 0 then - r0 else r0) < 2 ^ (w - 1))
      by (destruct (Z.ltb_spec x 0); lia).
    rewrite (signed_val_small _ _ Hw Hrq), (signed_val_small _ _ Hw Hrr).
    destruct (Z.ltb_spec x 0), (Z.ltb_spec y 0); simpl xorb; cbv iota; nia.
Qed.

Lemma abs_signed_unsigned (w x : Z) :
  1 ≤ w → unsigned_val w (Z.abs (signed_val w x)) = Z.abs (signed_val w x).
Proof.
  intros Hw. pose proof (signed_val_range w x Hw).
  pose proof (pow2_pred w Hw). pose proof (pow2_pos (w - 1) ltac:(lia)).
  unfold unsigned_val. apply Z.mod_small. lia.
Qed.

(** Signed non-restoring division: restoring division of the
    magnitudes, then a sign fix-up of each nonzero output. *)
Lemma div_nonrestoring_signed (a b w : Z) :
  1 ≤ w → b ≠ 0 → signed_val w b ≠ 0 →
  ∃ q r q0 r0,
    div_nonrestoring a b w true = Ok (q, r)
    ∧ q mod 2 ^ w
      = (if xorb (signed_val w a <? 0) (signed_val w b <? 0)
         then - q0 else q0) mod 2 ^ w
    ∧ r mod 2 ^ w = (if signed_val w a <? 0 then - r0 else r0) mod 2 ^ w
    ∧ Z.abs (signed_val w a) = q0 * Z.abs (signed_val w b) + r0
    ∧ 0 ≤ r0 ∧ (0 < Z.abs (signed_val w b) → r0 < Z.abs (signed_val w b))
    ∧ 0 ≤ q0 < 2 ^ w.
Proof.
  intros Hw Hb Hbs. unfold div_nonrestoring.
  destruct (Z.eqb_spec b 0) as [| _]; [contradiction |]. cbn [negb].
  rewrite !to_signed_ok by lia. run.
  pose proof (pow2_pos w ltac:(lia)) as Hpw.
  destruct (div_restoring_unsigned (Z.abs (signed_val w a))
              (Z.abs (signed_val w b)) w Hw ltac:(lia))
    as (q0 & r0 & Hrun & Hid & Hr0 & Hlt & Hq0).
  rewrite (abs_signed_unsigned w a Hw), (abs_signed_unsigned w b Hw) in Hid.
  rewrite (abs_signed_unsigned w b Hw) in Hlt.
  rewrite Hrun. run.
  set (rn := xorb (signed_val w a <? 0) (signed_val w b <? 0)).
  set (mn := signed_val w a <? 0).
  exists (if rn && negb (q0 =? 0) then (- q0) mod 2 ^ w else q0),
         (if mn && negb (r0 =? 0) then (- r0) mod 2 ^ w else r0), q0, r0.
  split; [destruct (rn && negb (q0 =? 0)), (mn && negb (r0 =? 0)); run; reflexivity |].
  split.
  { destruct rn; cbn [andb]; [| reflexivity].
    destruct (Z.eqb_spec q0 0) as [-> | _]; cbn [negb];
      [reflexivity | apply Z.mod_mod; lia]. }
  split.
  { destruct mn; cbn [andb]; [| reflexivity].
    destruct (Z.eqb_spec r0 0) as [-> | _]; cbn [negb];
      [reflexivity | apply Z.mod_mod; lia]. }
  repeat split; (assumption || lia).
Qed.

Lemma div_nonrestoring_unsigned (a b w : Z) :
  div_nonrestoring a b w false = div_restoring a b w false.
Proof.
  unfold div_nonrestoring. destruct (Z.eqb_spec b 0) as [-> | _]; reflexivity.
Qed.

(** C10: for every width [w >= 1] and all integers [a], [b] whose
    divisor is nonzero after masking, unsigned [div_restoring] and
    [div_nonrestoring] both return the floor quotient and the remainder
    of the masked operands; the remainder lies in [0, mask b). *)
Theorem unsigned_division_euclidean (a b w : Z) :
  1 ≤ w → unsigned_val w b ≠ 0 →
  let am := unsigned_val w a in
  let bm := unsigned_val w b in
  div_restoring a b w false = Ok (am / bm, am mod bm)
  ∧ div_nonrestoring a b w false = Ok (am / bm, am mod bm)
  ∧ 0 ≤ am mod bm < bm.
Proof.
  intros Hw Hbm am bm.
  assert (Hb : b ≠ 0) by (intros ->; apply Hbm; unfold unsigned_val; apply Z.mod_0_l;
                          pose proof (pow2_pos w); lia).
  pose proof (unsigned_val_range w b ltac:(lia)) as Hrange.
  assert (Hpos : 0 < bm) by (subst bm; lia).
  destruct (div_restoring_unsigned a b w Hw Hb) as (q & r & Hrun & Hid & Hr & Hlt & Hq).
  fold am bm in Hid, Hlt. specialize (Hlt Hpos).
  assert (Hqe : q = am / bm)
    by (apply Z.div_unique with (r := r); [left; lia | lia]).
  assert (Hre : r = am mod bm)
    by (apply Z.mod_unique with (q := q); [left; lia | lia]).
  rewrite div_nonrestoring_unsigned, Hrun, Hqe, Hre.
  repeat split; try reflexivity; apply Z.mod_pos_bound; exact Hpos.
Qed.

Lemma unsigned_division_euclidean_witness :
  1 ≤ 4 ∧ unsigned_val 4 4 ≠ 0 ∧
  div_restoring 13 4 4 false = Ok (3, 1)
  ∧ div_nonrestoring 13 4 4 false = Ok (3, 1)
  ∧ 0 ≤ 1 < 4.
Proof.
  split; [lia |]. split; [vm_compute; discriminate |].
  apply (unsigned_division_euclidean 13 4 4); [lia | vm_compute; discriminate].
Defined.

(** C1, as stated, fails twice.  Unsigned, the identity holds on the raw
    patterns, not on their sign extensions: 13 / 4 at width 4 gives
    (3, 1), and 13 reads as -3 when sign-extended.  Signed, -128 / -1 at
    width 8 returns the pattern 128, which reads as -128. *)
Lemma sign_extended_identity_fails :
  (div_restoring 13 4 4 false = Ok (3, 1)
   ∧ div_nonrestoring 13 4 4 false = Ok (3, 1)
   ∧ signed_val 4 13 ≠ signed_val 4 3 * signed_val 4 4 + signed_val 4 1)
  ∧ (div_restoring (-128) (-1) 8 true = Ok (128, 0)
     ∧ div_nonrestoring (-128) (-1) 8 true = Ok (128, 0)
     ∧ signed_val 8 (-128)
       ≠ signed_val 8 128 * signed_val 8 (-1) + signed_val 8 0).
Proof.
  repeat split; try (vm_compute; reflexivity); vm_compute; discriminate.
Qed.

(** C1 (amended): for every width [w >= 1], both dividers and all
    [a], [b] with [b] nonzero, the divider returns a quotient and a
    remainder satisfying [A = Q * B + R], where unsigned the four values
    are the masked patterns read as unsigned numbers, and signed they are
    read in two's complement -- provided, when signed, that the division
    is not the most negative value by [-1], and, for the signed
    non-restoring divider, that the divisor is nonzero after masking. *)
Theorem division_identity (v : divider) (a b w : Z) (signed : bool) :
  1 ≤ w → b ≠ 0 →
  ¬ quotient_overflow signed w a b →
  ¬ masked_zero_divisor v signed w b →
  ∃ q r,
    divide v a b w signed = Ok (q, r)
    ∧ operand_val signed w a
      = operand_val signed w q * operand_val signed w b + operand_val signed w r.
Proof.
  intros Hw Hb Hovf Hmz.
  pose proof (pow2_pos w ltac:(lia)) as Hpw.
  destruct signed; cbn [operand_val].
  - assert (Hno : ¬ (signed_val w a = - 2 ^ (w - 1) ∧ signed_val w b = -1))
      by (intros [? ?]; apply Hovf; repeat split; assumption).
    pose proof (signed_val_range w a Hw) as Ha.
    pose proof (signed_val_range w b Hw) as Hbr.
    destruct v; cbn [divide].
    + destruct (div_restoring_signed a b w Hw Hb)
        as (q0 & r0 & Hrun & Hid & Hr0 & Hlt & Hq0).
      eexists _, _. split; [exact Hrun |].
      apply (signed_identity w _ _ q0 r0); try assumption; try lia;
        apply Z.mod_mod; lia.
    + assert (Hbs : signed_val w b ≠ 0)
        by (intros Hz; apply Hmz; repeat split; assumption).
      destruct (div_nonrestoring_signed a b w Hw Hb Hbs)
        as (q & r & q0 & r0 & Hrun & Hq & Hr & Hid & Hr0 & Hlt & Hq0).
      exists q, r. split; [exact Hrun |].
      apply (signed_identity w _ _ q0 r0); try assumption; lia.
  - destruct (div_restoring_unsigned a b w Hw Hb)
      as (q & r & Hrun & Hid & Hr & Hlt & Hq).
    pose proof (unsigned_val_range w a ltac:(lia)) as Ha.
    pose proof (unsigned_val_range w b ltac:(lia)) as Hbr.
    exists q, r. split.
    + destruct v; cbn [divide]; [| rewrite div_nonrestoring_unsigned]; exact Hrun.
    + assert (Hrw : r < 2 ^ w) by nia.
      unfold unsigned_val in *.
      rewrite (Z.mod_small q), (Z.mod_small r) by lia. exact Hid.
Qed.

Lemma division_identity_witness :
  1 ≤ 8 ∧ 2 ≠ 0
  ∧ ¬ quotient_overflow true 8 (-7) 2
  ∧ ¬ masked_zero_divisor NonRestoring true 8 2
  ∧ ∃ q r,
      divide NonRestoring (-7) 2 8 true = Ok (q, r)
      ∧ operand_val true 8 (-7)
        = operand_val true 8 q * operand_val true 8 2 + operand_val true 8 r.
Proof.
  assert (H1 : ¬ quotient_overflow true 8 (-7) 2)
    by (intros (_ & _ & H); vm_compute in H; discriminate H).
  assert (H2 : ¬ masked_zero_divisor NonRestoring true 8 2)
    by (intros (_ & _ & H); vm_compute in H; discriminate H).
  split; [lia |]. split; [lia |]. split; [exact H1 |]. split; [exact H2 |].
  apply (division_identity NonRestoring (-7) 2 8 true); [lia | lia | exact H1 | exact H2].
Defined.

(** The zero check is on the raw divisor, and it comes first. *)
Lemma divide_by_zero (v : divider) (a w : Z) (signed : bool) :
  divide v a 0 w signed = Raise DivisionByZero.
Proof. destruct v; reflexivity. Qed.

(** A nonzero raw divisor raises nothing, whatever its masked value,
    except on the signed non-restoring path. *)
Lemma divide_nonzero_returns (v : divider) (a b w : Z) (signed : bool) :
  1 ≤ w → b ≠ 0 → ¬ masked_zero_divisor v signed w b →
  ∃ q r, divide v a b w signed = Ok (q, r).
Proof.
  intros Hw Hb Hmz. destruct signed.
  - destruct v; cbn [divide].
    + destruct (div_restoring_signed a b w Hw Hb) as (q0 & r0 & Hrun & _).
      eexists _, _. exact Hrun.
    + assert (Hbs : signed_val w b ≠ 0)
        by (intros Hz; apply Hmz; repeat split; assumption).
      destruct (div_nonrestoring_signed a b w Hw Hb Hbs)
        as (q & r & q0 & r0 & Hrun & _).
      exists q, r. exact Hrun.
  - destruct (div_restoring_unsigned a b w Hw Hb) as (q & r & Hrun & _).
    exists q, r.
    destruct v; cbn [divide]; [| rewrite div_nonrestoring_unsigned]; exact Hrun.
Qed.

(** The signed non-restoring path hands the magnitude of the masked
    divisor to [div_restoring], whose own zero check then fires. *)
Lemma div_nonrestoring_masked_zero (a b w : Z) :
  1 ≤ w → b ≠ 0 → signed_val w b = 0 →
  div_nonrestoring a b w true = Raise DivisionByZero.
Proof.
  intros Hw Hb Hz. unfold div_nonrestoring.
  destruct (Z.eqb_spec b 0) as [| _]; [contradiction |]. cbn [negb].
  rewrite !to_signed_ok by lia. run. rewrite Hz. reflexivity.
Qed.

(** C6: at width 8 the raw divisor 256 is nonzero and masks to 0.  The
    restoring divider and the unsigned non-restoring divider return a
    result for it; the signed non-restoring divider raises the
    division-by-zero error. *)
Theorem div_nonrestoring_raises_on_masked_zero :
  div_nonrestoring 5 256 8 true = Raise DivisionByZero
  ∧ div_restoring 5 256 8 true = Ok (255, 5)
  ∧ div_restoring 5 256 8 false = Ok (255, 5)
  ∧ div_nonrestoring 5 256 8 false = Ok (255, 5).
Proof. repeat split; vm_compute; reflexivity. Qed.

(** * Further properties of the arithmetic core *)

(** ** BitWidthOps: [to_unsigned] *)

Lemma to_unsigned_ok (v w : Z) :
  0 ≤ w → to_unsigned v w = Ok (if v <? 0 then 2 ^ w + v else v).
Proof.
  intros Hw. unfold to_unsigned. destruct (v <? 0); run; [| reflexivity].
  f_equal. lia.
Qed.

(** X1: [to_unsigned] and [sign_extend] are inverse to each other at
    every width [w >= 1]: a signed value in [-2^(w-1), 2^(w-1)) survives
    encoding and decoding, and a pattern in [0, 2^w) survives decoding
    and encoding. *)
Theorem to_unsigned_sign_extend_inverse (s r w : Z) :
  1 ≤ w → - 2 ^ (w - 1) ≤ s < 2 ^ (w - 1) → 0 ≤ r < 2 ^ w →
  (u ← to_unsigned s w; sign_extend u w) = Ok s
  ∧ (x ← sign_extend r w; to_unsigned x w) = Ok r.
Proof.
  intros Hw Hs Hr. pose proof (pow2_pred w Hw) as Hp.
  pose proof (pow2_pos (w - 1) ltac:(lia)) as Hpos. split.
  - rewrite to_unsigned_ok, bind_Ok, sign_extend_ok by lia. f_equal.
    destruct (Z.ltb_spec s 0).
    + rewrite testbit_top by lia.
      destruct (Z.leb_spec (2 ^ (w - 1)) (2 ^ w + s)); lia.
    + rewrite testbit_top by lia.
      destruct (Z.leb_spec (2 ^ (w - 1)) s); lia.
  - rewrite sign_extend_ok, bind_Ok, to_unsigned_ok by lia. f_equal.
    rewrite testbit_top by lia.
    destruct (Z.leb_spec (2 ^ (w - 1)) r).
    + destruct (Z.ltb_spec (r - 2 ^ w) 0); lia.
    + destruct (Z.ltb_spec r 0); lia.
Qed.

Lemma to_unsigned_sign_extend_inverse_witness :
  1 ≤ 8 ∧ - 2 ^ (8 - 1) ≤ -56 < 2 ^ (8 - 1) ∧ 0 ≤ 200 < 2 ^ 8 ∧
  (u ← to_unsigned (-56) 8; sign_extend u 8) = Ok (-56)
  ∧ (x ← sign_extend 200 8; to_unsigned x 8) = Ok 200.
Proof.
  split; [lia |]. split; [lia |]. split; [lia |].
  apply (to_unsigned_sign_extend_inverse (-56) 200 8); lia.
Defined.

(** X2: [to_unsigned] reduces nothing: it agrees with [mask_to_width]
    exactly on [-2^w <= v < 2^w], and outside that interval it returns a
    value that is not a [w]-bit pattern. *)
Theorem to_unsigned_vs_mask (v w : Z) :
  1 ≤ w →
  ∃ u m, to_unsigned v w = Ok u ∧ mask_to_width v w = Ok m
         ∧ (if (- 2 ^ w <=? v) && (v <? 2 ^ w) then u = m
            else ¬ (0 ≤ u < 2 ^ w)).
Proof.
  intros Hw. pose proof (pow2_pos w ltac:(lia)) as Hpos.
  eexists _, _. split; [apply to_unsigned_ok; lia |].
  split; [apply mask_to_width_ok; lia |].
  destruct (Z.leb_spec (- 2 ^ w) v), (Z.ltb_spec v (2 ^ w)), (Z.ltb_spec v 0);
    cbn [andb]; try lia.
  - apply Z.mod_unique with (q := -1); lia.
  - symmetry. apply Z.mod_small; lia.
Qed.

Lemma to_unsigned_vs_mask_witness :
  1 ≤ 8 ∧
  ∃ u m, to_unsigned 300 8 = Ok u ∧ mask_to_width 300 8 = Ok m
         ∧ (if (- 2 ^ 8 <=? 300) && (300 <? 2 ^ 8) then u = m
            else ¬ (0 ≤ u < 2 ^ 8)).
Proof. split; [lia | apply (to_unsigned_vs_mask 300 8); lia]. Defined.

(** ** Invalid widths *)

Lemma mask_to_width_neg (v w : Z) : w < 0 → mask_to_width v w = Raise NegativeShift.
Proof.
  intros Hw. unfold mask_to_width. now rewrite py_lshift_neg by lia.
Qed.

(** X3: a negative width makes every operation raise the shift error:
    masking, sign extension, [add], [sub], the four multipliers and the
    two dividers.  The dividers still report a zero divisor first. *)
Theorem negative_width_raises (v : divider) (a b w : Z) (signed : bool) :
  w < 0 →
  mask_to_width a w = Raise NegativeShift
  ∧ sign_extend a w = Raise NegativeShift
  ∧ add a b w signed = Raise NegativeShift
  ∧ sub a b w signed = Raise NegativeShift
  ∧ mul_sequential a b w signed = Raise NegativeShift
  ∧ mul_booth a b w signed = Raise NegativeShift
  ∧ mul_bit a b w signed = Raise NegativeShift
  ∧ mul_bitpair a b w signed = Raise NegativeShift
  ∧ divide v a b w signed
    = Raise (if b =? 0 then DivisionByZero else NegativeShift).
Proof.
  intros Hw.
  assert (Hmul : mul_sequential a b w signed = Raise NegativeShift).
  { unfold mul_sequential.
    destruct signed; rewrite !mask_to_width_neg by lia; reflexivity. }
  assert (Hbooth : mul_booth a b w signed = Raise NegativeShift).
  { unfold mul_booth. destruct signed; cbn [negb]; [| exact Hmul].
    rewrite !mask_to_width_neg by lia. reflexivity. }
  split; [apply mask_to_width_neg; lia |].
  split; [unfold sign_extend; now rewrite !py_lshift_neg by lia |].
  split; [unfold add; now rewrite !mask_to_width_neg by lia |].
  split; [unfold sub; now rewrite !mask_to_width_neg by lia |].
  split; [exact Hmul |]. split; [exact Hbooth |].
  split; [exact Hmul |]. split; [exact Hbooth |].
  assert (Hres : ∀ s, div_restoring a b w s
                      = Raise (if b =? 0 then DivisionByZero else NegativeShift)).
  { intros s. unfold div_restoring. destruct (b =? 0); [reflexivity |].
    destruct s; rewrite !mask_to_width_neg by lia; reflexivity. }
  destruct v; cbn [divide]; [apply Hres |].
  unfold div_nonrestoring. destruct (b =? 0) eqn:Hb; [reflexivity |].
  destruct signed; cbn [negb].
  - rewrite !mask_to_width_neg by lia. reflexivity.
  - apply Hres.
Qed.

Lemma negative_width_raises_witness :
  -1 < 0 ∧ add 3 4 (-1) false = Raise NegativeShift
  ∧ divide NonRestoring 7 0 (-1) true = Raise DivisionByZero.
Proof.
  split; [lia |].
  pose proof (negative_width_raises NonRestoring 3 4 (-1) false ltac:(lia))
    as (_ & _ & Hadd & _).
  pose proof (negative_width_raises NonRestoring 7 0 (-1) true ltac:(lia))
    as (_ & _ & _ & _ & _ & _ & _ & _ & Hdiv).
  split; [exact Hadd | exact Hdiv].
Defined.

Lemma mask_zero_width (v : Z) : mask_to_width v 0 = Ok 0.
Proof.
  rewrite mask_to_width_ok by lia. change (2 ^ 0) with 1.
  now rewrite Z.mod_1_r.
Qed.

Ltac run_zero_width :=
  repeat (first [rewrite mask_zero_width | rewrite bind_Ok | rewrite ret_Ok];
          cbv beta iota).

(** X4: at width 0 the signed paths raise the shift error, because they
    read bit [width - 1]; the unsigned paths return zeros: [add] gives
    [(0, {carry_out: 0})], [sub] gives [(0, {borrow: True})], the
    multipliers give 0 and the dividers give [(0, 0)] for a nonzero
    divisor. *)
Theorem zero_width_behaviour (v : divider) (a b : Z) :
  (add a b 0 true = Raise NegativeShift
   ∧ sub a b 0 true = Raise NegativeShift
   ∧ mul_sequential a b 0 true = Raise NegativeShift
   ∧ mul_booth a b 0 true = Raise NegativeShift
   ∧ divide v a b 0 true
     = Raise (if b =? 0 then DivisionByZero else NegativeShift))
  ∧ (add a b 0 false = Ok (0, {["carry_out" := PyInt 0]})
     ∧ sub a b 0 false = Ok (0, {["borrow" := PyBool true]})
     ∧ mul_sequential a b 0 false = Ok (0, ∅)
     ∧ mul_booth a b 0 false = Ok (0, ∅)
     ∧ divide v a b 0 false
       = if b =? 0 then Raise DivisionByZero else Ok (0, 0)).
Proof.
  split.
  - split; [unfold add; run_zero_width; reflexivity |].
    split; [unfold sub; run_zero_width; reflexivity |].
    split; [unfold mul_sequential; run_zero_width; reflexivity |].
    split; [unfold mul_booth; cbn [negb]; run_zero_width; reflexivity |].
    destruct v; cbn [divide]; unfold div_nonrestoring, div_restoring;
      destruct (b =? 0); try reflexivity; cbn [negb];
      run_zero_width; reflexivity.
  - split; [unfold add; run_zero_width; reflexivity |].
    split; [unfold sub; run_zero_width; reflexivity |].
    split; [unfold mul_sequential; run_zero_width; reflexivity |].
    split; [unfold mul_booth, mul_sequential; cbn [negb]; run_zero_width; reflexivity |].
    destruct v; cbn [divide]; unfold div_nonrestoring, div_restoring;
      destruct (b =? 0); try reflexivity; cbn [negb];
      run_zero_width; reflexivity.
Qed.

(** ** ShiftOps: meaning and bounds of the shift count *)

(** A nonzero in-range shift, in closed form. *)
Lemma arithmetic_right_shift_ok (raw s w : Z) :
  1 ≤ w → 0 ≤ raw < 2 ^ w → 0 < s ≤ w →
  arithmetic_right_shift raw s w
  = Ok (if Z.testbit raw (w - 1)
        then raw / 2 ^ s + (2 ^ w - 2 ^ (w - s))
        else raw / 2 ^ s).
Proof.
  intros Hw Hr Hs. unfold arithmetic_right_shift.
  destruct (Z.eqb_spec s 0); [lia |]. run.
  rewrite truthy_land_pow2 by lia.
  destruct (Z.testbit raw (w - 1)); run; [| reflexivity].
  now rewrite shift_fill_closed by lia.
Qed.

(** X5: for every width [w >= 1], pattern [raw] in [0, 2^w) and shift
    in [0, w], [arithmetic_right_shift] is division of the signed value
    by [2^shift], rounded toward minus infinity and re-encoded in [w]
    bits. *)
Theorem arithmetic_right_shift_floor_div (raw shift w : Z) :
  1 ≤ w → 0 ≤ raw < 2 ^ w → 0 ≤ shift ≤ w →
  arithmetic_right_shift raw shift w
  = Ok ((signed_val w raw / 2 ^ shift) mod 2 ^ w).
Proof.
  intros Hw Hr Hs.
  pose proof (pow2_pos w ltac:(lia)) as Hpw.
  pose proof (pow2_pred w Hw) as Hp.
  assert (Hsv : signed_val w raw
                = if Z.testbit raw (w - 1) then raw - 2 ^ w else raw).
  { unfold signed_val. cbv zeta. rewrite Z.mod_small, testbit_top by lia.
    destruct (Z.ltb_spec raw (2 ^ (w - 1))), (Z.leb_spec (2 ^ (w - 1)) raw);
      (reflexivity || lia). }
  destruct (Z.eq_dec shift 0) as [-> | Hnz].
  - change (2 ^ 0) with 1. rewrite Z.div_1_r, signed_val_mod, Z.mod_small by lia.
    reflexivity.
  - rewrite arithmetic_right_shift_ok, Hsv by lia. f_equal.
    pose proof (pow2_pos shift ltac:(lia)) as Hps.
    pose proof (pow2_pos (w - shift) ltac:(lia)) as Hpd.
    pose proof (pow2_split w shift ltac:(lia)) as Hsplit.
    assert (Hq : 0 ≤ raw / 2 ^ shift < 2 ^ (w - shift)).
    { split; [apply Z.div_pos; lia | apply Z.div_lt_upper_bound; lia]. }
    destruct (Z.testbit raw (w - 1)).
    + replace (raw - 2 ^ w) with (raw + (- 2 ^ (w - shift)) * 2 ^ shift) by lia.
      rewrite Z.div_add by lia.
      apply Z.mod_unique with (q := -1); [left; nia | lia].
    + symmetry. apply Z.mod_small. nia.
Qed.

Lemma arithmetic_right_shift_floor_div_witness :
  1 ≤ 8 ∧ 0 ≤ 201 < 2 ^ 8 ∧ 0 ≤ 3 ≤ 8 ∧
  arithmetic_right_shift 201 3 8 = Ok (((-55) / 8) mod 256).
Proof.
  split; [lia |]. split; [lia |]. split; [lia |].
  exact (arithmetic_right_shift_floor_div 201 3 8 ltac:(lia) ltac:(lia) ltac:(lia)).
Defined.

(** X6: outside [0, w] the shift count is not clamped.  A negative
    count always raises.  A count above [w] raises when the sign bit is
    set, because the fill mask is shifted by [w - shift], and returns 0
    when it is clear. *)
Theorem arithmetic_right_shift_out_of_range (raw shift w : Z) :
  1 ≤ w → 0 ≤ raw < 2 ^ w → shift < 0 ∨ w < shift →
  arithmetic_right_shift raw shift w
  = if (shift <? 0) || Z.testbit raw (w - 1) then Raise NegativeShift
    else Ok 0.
Proof.
  intros Hw Hr Hs. unfold arithmetic_right_shift.
  destruct (Z.eqb_spec shift 0); [lia |].
  rewrite (py_lshift_ok 1 (w - 1)), bind_Ok by lia. cbv beta.
  rewrite truthy_land_pow2 by lia.
  destruct (Z.ltb_spec shift 0) as [Hneg | Hpos]; cbn [orb].
  - destruct (Z.testbit raw (w - 1)).
    + now rewrite (py_lshift_neg 1 shift) by lia.
    + unfold py_rshift. destruct (Z.ltb_spec shift 0); [reflexivity | lia].
  - destruct (Z.testbit raw (w - 1)).
    + rewrite (py_lshift_ok 1 shift), bind_Ok by lia. cbv beta.
      now rewrite (py_lshift_neg (1 * 2 ^ shift - 1) (w - shift)) by lia.
    + rewrite py_rshift_ok by lia. f_equal. apply Z.div_small.
      split; [lia |]. apply Z.lt_le_trans with (2 ^ w); [lia |].
      apply Z.pow_le_mono_r; lia.
Qed.

Lemma arithmetic_right_shift_out_of_range_witness :
  1 ≤ 8 ∧ 0 ≤ 200 < 2 ^ 8 ∧ (9 < 0 ∨ 8 < 9) ∧
  arithmetic_right_shift 200 9 8 = Raise NegativeShift.
Proof.
  split; [lia |]. split; [lia |]. split; [right; lia |].
  exact (arithmetic_right_shift_out_of_range 200 9 8
           ltac:(lia) ltac:(lia) ltac:(right; lia)).
Defined.

(** ** AddSub: what the results and flags mean *)

Ltac case_compare :=
  repeat match goal with
    | |- context [?x <? ?y] => destruct (Z.ltb_spec x y)
    | |- context [?x <=? ?y] => destruct (Z.leb_spec x y)
    | |- context [?x =? ?y] => destruct (Z.eqb_spec x y)
    end.

Lemma add_result_sum (w a b : Z) : 1 ≤ w → add_result w a b = (a + b) mod 2 ^ w.
Proof.
  intros Hw. unfold add_result, unsigned_val.
  symmetry. apply Z.add_mod. pose proof (pow2_pos w); lia.
Qed.

(** X7: at every width [w >= 1] and in both modes, [add] returns the
    true sum [a + b] reduced modulo [2^w] and [sub] the true difference
    [a - b] reduced modulo [2^w], for all integers [a] and [b]. *)
Theorem add_sub_wraparound (a b w : Z) (signed : bool) :
  1 ≤ w →
  ∃ add_flags sub_flags,
    add a b w signed = Ok ((a + b) mod 2 ^ w, add_flags)
    ∧ sub a b w signed = Ok ((a - b) mod 2 ^ w, sub_flags).
Proof.
  intros Hw. eexists _, _. split.
  - rewrite add_ok, add_result_sum by lia. reflexivity.
  - rewrite sub_ok, add_result_sum, Z.add_opp_r by lia. reflexivity.
Qed.

Lemma add_sub_wraparound_witness :
  1 ≤ 8 ∧
  ∃ add_flags sub_flags,
    add 200 100 8 false = Ok ((200 + 100) mod 2 ^ 8, add_flags)
    ∧ sub 200 100 8 false = Ok ((200 - 100) mod 2 ^ 8, sub_flags).
Proof. split; [lia | apply (add_sub_wraparound 200 100 8 false); lia]. Defined.

Lemma testbit_carry (x w : Z) :
  0 ≤ w → 0 ≤ x < 2 * 2 ^ w → Z.testbit x w = (2 ^ w <=? x).
Proof.
  intros Hw Hx.
  pose proof (testbit_top x (w + 1) ltac:(lia)) as Htop.
  rewrite Z.add_simpl_r, pow2_succ in Htop by lia. now apply Htop.
Qed.

Lemma mod_opp_cases (b w : Z) :
  0 ≤ w →
  (- b) mod 2 ^ w = if b mod 2 ^ w =? 0 then 0 else 2 ^ w - b mod 2 ^ w.
Proof.
  intros Hw. pose proof (pow2_pos w Hw) as Hpos.
  destruct (Z.eqb_spec (b mod 2 ^ w) 0) as [Hz | Hnz].
  - apply Z.mod_opp_l_z; lia.
  - apply Z.mod_opp_l_nz; lia.
Qed.

(** X8: unsigned flags.  [add] sets [carry_out] to 1 exactly when the
    masked operands sum to [2^w] or more.  [sub] sets [borrow] exactly
    when the masked [b] is 0 or exceeds the masked [a]: subtracting zero
    reports a borrow, because the complement of 0 is masked to 0 and the
    addition then carries nothing. *)
Theorem unsigned_carry_and_borrow (a b w : Z) :
  1 ≤ w →
  let am := unsigned_val w a in
  let bm := unsigned_val w b in
  ∃ sum diff,
    add a b w false
    = Ok (sum, {["carry_out" := PyInt (if 2 ^ w <=? am + bm then 1 else 0)]})
    ∧ sub a b w false
      = Ok (diff, {["borrow" := PyBool ((bm =? 0) || (am <? bm))]}).
Proof.
  intros Hw am bm.
  pose proof (pow2_pos w ltac:(lia)) as Hpos.
  pose proof (unsigned_val_range w a ltac:(lia)) as Ha.
  pose proof (unsigned_val_range w b ltac:(lia)) as Hb.
  eexists _, _. split.
  - rewrite add_ok by lia. unfold add_carry.
    rewrite testbit_carry by lia. fold am bm.
    destruct (2 ^ w <=? am + bm); reflexivity.
  - rewrite sub_ok by lia. unfold add_carry.
    pose proof (unsigned_val_range w (- b) ltac:(lia)) as Hnb.
    rewrite testbit_carry by lia.
    unfold unsigned_val in *. rewrite mod_opp_cases by lia.
    fold am bm. subst am bm. unfold truthy_int.
    case_compare; cbn [Z.b2z negb orb] in *; (reflexivity || lia).
Qed.

Lemma unsigned_carry_and_borrow_witness :
  1 ≤ 8 ∧
  ∃ sum diff,
    add 5 0 8 false = Ok (sum, {["carry_out" := PyInt 0]})
    ∧ sub 5 0 8 false = Ok (diff, {["borrow" := PyBool true]}).
Proof. split; [lia | apply (unsigned_carry_and_borrow 5 0 8); lia]. Defined.

Lemma signed_val_cases (w x : Z) :
  1 ≤ w →
  signed_val w x
  = if x mod 2 ^ w <? 2 ^ (w - 1) then x mod 2 ^ w else x mod 2 ^ w - 2 ^ w.
Proof. reflexivity. Qed.

(** The sign-bit test of [add] is exact: it fires when, and only when,
    the sum of the signed readings has no [w]-bit encoding. *)
Lemma add_overflow_spec (w x y : Z) :
  1 ≤ w →
  add_overflow w x y = negb (fits_signed w (signed_val w x + signed_val w y)).
Proof.
  intros Hw. pose proof (pow2_pred w Hw) as Hp.
  pose proof (pow2_pos (w - 1) ltac:(lia)) as Hpos.
  pose proof (unsigned_val_range w x ltac:(lia)) as Hx.
  pose proof (unsigned_val_range w y ltac:(lia)) as Hy.
  pose proof (unsigned_val_range w (unsigned_val w x + unsigned_val w y) ltac:(lia))
    as Hs.
  unfold add_overflow, sign_bit, add_result, fits_signed.
  rewrite !signed_val_cases by lia.
  rewrite !testbit_top by (assumption || lia).
  unfold unsigned_val in *.
  set (am := x mod 2 ^ w) in *. set (bm := y mod 2 ^ w) in *.
  assert (Hsum : (am + bm) mod 2 ^ w
                 = if am + bm <? 2 ^ w then am + bm else am + bm - 2 ^ w).
  { destruct (Z.ltb_spec (am + bm) (2 ^ w)).
    - apply Z.mod_small; lia.
    - symmetry. apply Z.mod_unique with (q := 1); lia. }
  rewrite Hsum in *. clearbody am bm.
  destruct (Z.ltb_spec (am + bm) (2 ^ w));
    case_compare; cbn [eqb negb andb]; (reflexivity || lia).
Qed.

(** X9: in signed mode [add] sets [overflow] exactly when the sum of
    the operands' two's-complement values lies outside
    [-2^(w-1), 2^(w-1)); when it is clear, the result decodes to that
    sum. *)
Theorem signed_add_overflow_exact (a b w : Z) :
  1 ≤ w →
  let sum := signed_val w a + signed_val w b in
  ∃ res,
    add a b w true
    = Ok (res, {["overflow" := PyBool (negb (fits_signed w sum))]})
    ∧ (if fits_signed w sum then signed_val w res = sum
       else signed_val w res ≠ sum).
Proof.
  intros Hw sum. eexists. split.
  - rewrite add_ok, add_overflow_spec by lia. reflexivity.
  - rewrite add_result_sum by lia.
    assert (Hcongr : signed_val w ((a + b) mod 2 ^ w) = signed_val w sum).
    { apply signed_val_congr. rewrite Z.mod_mod by (pose proof (pow2_pos w); lia).
      subst sum. rewrite Z.add_mod, <- (signed_val_mod w a), <- (signed_val_mod w b),
        <- Z.add_mod by (pose proof (pow2_pos w); lia). reflexivity. }
    rewrite Hcongr. pose proof (signed_val_range w sum Hw) as Hrange.
    unfold fits_signed.
    case_compare; cbn [andb]; first [apply signed_val_small; lia | lia].
Qed.

Lemma signed_add_overflow_exact_witness :
  1 ≤ 8 ∧
  ∃ res,
    add 100 50 8 true = Ok (res, {["overflow" := PyBool true]})
    ∧ signed_val 8 res ≠ 150.
Proof.
  split; [lia | apply (signed_add_overflow_exact 100 50 8); lia].
Defined.

(** Negating a pattern negates its signed value, except for the most
    negative one, which is its own negation. *)
Lemma signed_val_opp (w b : Z) :
  1 ≤ w →
  signed_val w (- b)
  = if signed_val w b =? - 2 ^ (w - 1) then - 2 ^ (w - 1) else - signed_val w b.
Proof.
  intros Hw. pose proof (pow2_pred w Hw) as Hp.
  pose proof (pow2_pos (w - 1) ltac:(lia)) as Hpos.
  pose proof (unsigned_val_range w b ltac:(lia)) as Hb. unfold unsigned_val in Hb.
  rewrite !signed_val_cases, mod_opp_cases by lia.
  set (bm := b mod 2 ^ w) in *. clearbody bm.
  destruct (Z.eqb_spec bm 0); case_compare; lia.
Qed.

(** X10: in signed mode [sub] sets [overflow] exactly when the true
    difference of the signed values does not fit in [w] bits -- unless
    [b] is the most negative value.  Then the flag is set when [a] is
    negative, where the true difference fits, and clear when [a] is
    non-negative, where it does not. *)
Theorem signed_sub_overflow (a b w : Z) :
  1 ≤ w →
  let a_s := signed_val w a in
  let b_s := signed_val w b in
  ∃ res,
    sub a b w true
    = Ok (res,
          {["overflow" :=
              PyBool (if b_s =? - 2 ^ (w - 1) then a_s <? 0
                      else negb (fits_signed w (a_s - b_s)))]})
    ∧ (if b_s =? - 2 ^ (w - 1)
       then fits_signed w (a_s - b_s) = (a_s <? 0)
       else True).
Proof.
  intros Hw a_s b_s. pose proof (pow2_pred w Hw) as Hp.
  pose proof (pow2_pos (w - 1) ltac:(lia)) as Hpos.
  pose proof (signed_val_range w a Hw) as Ha. fold a_s in Ha.
  eexists. split.
  - rewrite sub_ok, add_overflow_spec, signed_val_opp by lia.
    fold a_s b_s. do 4 f_equal. unfold fits_signed.
    destruct (Z.eqb_spec b_s (- 2 ^ (w - 1))); [| now rewrite Z.add_opp_r].
    case_compare; cbn [andb negb]; (reflexivity || lia).
  - unfold fits_signed.
    destruct (Z.eqb_spec b_s (- 2 ^ (w - 1))) as [-> |]; [| exact I].
    case_compare; cbn [andb]; (reflexivity || lia).
Qed.

Lemma signed_sub_overflow_witness :
  1 ≤ 8 ∧
  ∃ res, sub 0 (-128) 8 true = Ok (res, {["overflow" := PyBool false]})
         ∧ fits_signed 8 (0 - -128) = false.
Proof.
  split; [lia | apply (signed_sub_overflow 0 (-128) 8); lia].
Defined.

(** ** Multipliers: the double-width product never wraps *)

Lemma signed_product_range (w x y : Z) :
  1 ≤ w →
  - 2 ^ (w - 1) ≤ x < 2 ^ (w - 1) → - 2 ^ (w - 1) ≤ y < 2 ^ (w - 1) →
  - 2 ^ (2 * w - 1) ≤ x * y < 2 ^ (2 * w - 1).
Proof.
  intros Hw Hx Hy. pose proof (pow2_pos (w - 1) ltac:(lia)) as Hpos.
  replace (2 * w - 1) with ((w - 1) + (w - 1) + 1) by lia.
  rewrite pow2_succ, Z.pow_add_r by lia. nia.
Qed.

(** X11: for every width [w >= 1] the [2w]-bit result of each
    multiplier decodes to the exact integer product of the operands'
    values: unsigned, the result is the product of the masked operands
    itself; signed, its [2w]-bit two's-complement reading is the product
    of the signed values.  No product is lost to wrap-around. *)
Theorem multiplier_exact (a b w : Z) (signed : bool) :
  1 ≤ w →
  ∃ p,
    mul_sequential a b w signed = Ok (p, ∅)
    ∧ mul_booth a b w signed = Ok (p, ∅)
    ∧ mul_bit a b w signed = Ok (p, ∅)
    ∧ mul_bitpair a b w signed = Ok (p, ∅)
    ∧ 0 ≤ p < 2 ^ (2 * w)
    ∧ operand_val signed (2 * w) p
      = operand_val signed w a * operand_val signed w b.
Proof.
  intros Hw. pose proof (pow2_pos (2 * w) ltac:(lia)) as Hpos.
  eexists. split; [apply mul_sequential_ok; exact Hw |].
  split; [apply mul_booth_ok; exact Hw |].
  split; [exact (mul_sequential_ok a b w signed Hw) |].
  split; [exact (mul_booth_ok a b w signed Hw) |].
  split; [apply Z.mod_pos_bound; lia |].
  destruct signed; cbn [operand_val].
  - rewrite (signed_val_congr (2 * w) _ (signed_val w a * signed_val w b))
      by (apply Z.mod_mod; lia).
    apply signed_val_small; [lia |].
    apply signed_product_range; [exact Hw | |]; apply signed_val_range; exact Hw.
  - pose proof (unsigned_val_range w a ltac:(lia)) as Ha.
    pose proof (unsigned_val_range w b ltac:(lia)) as Hb.
    assert (H2w : 2 ^ (2 * w) = 2 ^ w * 2 ^ w)
      by (rewrite <- Z.pow_add_r by lia; f_equal; lia).
    unfold unsigned_val at 1. rewrite Z.mod_mod by lia.
    apply Z.mod_small. nia.
Qed.

Lemma multiplier_exact_witness :
  1 ≤ 8 ∧
  ∃ p,
    mul_sequential (-128) (-128) 8 true = Ok (p, ∅)
    ∧ mul_booth (-128) (-128) 8 true = Ok (p, ∅)
    ∧ mul_bit (-128) (-128) 8 true = Ok (p, ∅)
    ∧ mul_bitpair (-128) (-128) 8 true = Ok (p, ∅)
    ∧ 0 ≤ p < 2 ^ (2 * 8)
    ∧ operand_val true (2 * 8) p = operand_val true 8 (-128) * operand_val true 8 (-128).
Proof. split; [lia | apply (multiplier_exact (-128) (-128) 8 true); lia]. Defined.

(** ** Dividers: signed division truncates toward zero *)

Lemma div_restoring_unsigned_euclid (a b w : Z) :
  1 ≤ w → unsigned_val w b ≠ 0 →
  div_restoring a b w false
  = Ok (unsigned_val w a / unsigned_val w b, unsigned_val w a mod unsigned_val w b).
Proof.
  intros Hw Hbm.
  assert (Hb : b ≠ 0).
  { intros ->. apply Hbm. unfold unsigned_val. apply Z.mod_0_l.
    pose proof (pow2_pos w); lia. }
  pose proof (unsigned_val_range w b ltac:(lia)) as Hrange.
  destruct (div_restoring_unsigned a b w Hw Hb) as (q & r & Hrun & Hid & Hr & Hlt & Hq).
  specialize (Hlt ltac:(lia)). rewrite Hrun. do 2 f_equal.
  - apply Z.div_unique with (r := r); [left; lia | lia].
  - apply Z.mod_unique with (q := q); [left; lia | lia].
Qed.

Lemma quot_by_magnitudes (x y : Z) :
  y ≠ 0 →
  (if xorb (x <? 0) (y <? 0) then - (Z.abs x / Z.abs y) else Z.abs x / Z.abs y)
  = x ÷ y.
Proof.
  intros Hy. rewrite (Z.quot_div x y Hy).
  destruct (Z.eq_dec x 0) as [-> | Hx].
  - simpl Z.abs. rewrite Z.div_0_l by lia. simpl Z.sgn.
    destruct (xorb (0 <? 0) (y <? 0)); lia.
  - destruct (Z.ltb_spec x 0), (Z.ltb_spec y 0); cbn [xorb];
      rewrite ?(Z.sgn_neg x), ?(Z.sgn_neg y), ?(Z.sgn_pos x), ?(Z.sgn_pos y) by lia;
      lia.
Qed.

Lemma rem_by_magnitudes (x y : Z) :
  y ≠ 0 →
  (if x <? 0 then - (Z.abs x mod Z.abs y) else Z.abs x mod Z.abs y)
  = Z.rem x y.
Proof.
  intros Hy. rewrite (Z.rem_mod x y Hy).
  destruct (Z.eq_dec x 0) as [-> | Hx].
  - simpl Z.abs. rewrite Z.mod_0_l by lia. reflexivity.
  - destruct (Z.ltb_spec x 0);
      rewrite ?(Z.sgn_neg x), ?(Z.sgn_pos x) by lia; lia.
Qed.

Lemma signed_val_zero (w : Z) : 1 ≤ w → signed_val w 0 = 0.
Proof. intros Hw. apply signed_val_small; [exact Hw |]. pose proof (pow2_pos (w - 1)); lia. Qed.

(** The magnitude quotient and remainder of two [w]-bit signed values
    are themselves [w]-bit patterns. *)
Lemma magnitude_division_range (w x y : Z) :
  1 ≤ w → - 2 ^ (w - 1) ≤ x < 2 ^ (w - 1) → y ≠ 0 →
  0 ≤ Z.abs x / Z.abs y < 2 ^ w ∧ 0 ≤ Z.abs x mod Z.abs y < 2 ^ w.
Proof.
  intros Hw Hx Hy. pose proof (pow2_pred w Hw) as Hp.
  pose proof (pow2_pos (w - 1) ltac:(lia)) as Hpos.
  pose proof (Z.mod_pos_bound (Z.abs x) (Z.abs y) ltac:(lia)) as Hm.
  pose proof (Z.div_mod (Z.abs x) (Z.abs y) ltac:(lia)) as Hdm.
  assert (0 ≤ Z.abs x / Z.abs y) by (apply Z.div_pos; lia).
  split; nia.
Qed.

Lemma div_nonrestoring_signed_exact (a b w : Z) :
  1 ≤ w → signed_val w b ≠ 0 →
  let a_s := signed_val w a in
  let b_s := signed_val w b in
  let q0 := Z.abs a_s / Z.abs b_s in
  let r0 := Z.abs a_s mod Z.abs b_s in
  div_nonrestoring a b w true
  = Ok (if xorb (a_s <? 0) (b_s <? 0) && negb (q0 =? 0)
        then (- q0) mod 2 ^ w else q0,
        if (a_s <? 0) && negb (r0 =? 0) then (- r0) mod 2 ^ w else r0).
Proof.
  intros Hw Hbs a_s b_s q0 r0.
  assert (Hb : b ≠ 0) by (intros ->; apply Hbs; now apply signed_val_zero).
  unfold div_nonrestoring.
  destruct (Z.eqb_spec b 0) as [| _]; [contradiction |]. cbn [negb].
  rewrite !to_signed_ok by lia. run.
  rewrite div_restoring_unsigned_euclid
    by (rewrite ?abs_signed_unsigned by lia; lia).
  rewrite !abs_signed_unsigned by lia. run.
  fold a_s b_s q0 r0.
  destruct (xorb (a_s <? 0) (b_s <? 0) && negb (q0 =? 0)),
    ((a_s <? 0) && negb (r0 =? 0)); run; reflexivity.
Qed.

(** X12: for every width [w >= 1] and every divisor that is nonzero
    after masking, both signed dividers return the same pair: the
    quotient rounded toward zero and the remainder carrying the sign of
    the dividend ([Z.quot] and [Z.rem] of the signed values), each encoded
    in [w] bits. *)
Theorem signed_division_truncates (a b w : Z) :
  1 ≤ w → signed_val w b ≠ 0 →
  let a_s := signed_val w a in
  let b_s := signed_val w b in
  div_restoring a b w true
  = Ok ((a_s ÷ b_s) mod 2 ^ w, (Z.rem a_s b_s) mod 2 ^ w)
  ∧ div_nonrestoring a b w true
    = Ok ((a_s ÷ b_s) mod 2 ^ w, (Z.rem a_s b_s) mod 2 ^ w).
Proof.
  intros Hw Hbs a_s b_s.
  assert (Hb : b ≠ 0) by (intros ->; apply Hbs; now apply signed_val_zero).
  pose proof (pow2_pos w ltac:(lia)) as Hpw.
  pose proof (signed_val_range w a Hw) as Ha.
  destruct (magnitude_division_range w a_s b_s Hw Ha Hbs) as [Hq0 Hr0].
  split.
  - destruct (div_restoring_signed a b w Hw Hb)
      as (q0 & r0 & Hrun & Hid & Hr & Hlt & Hq).
    fold a_s b_s in Hrun, Hid, Hlt. specialize (Hlt ltac:(lia)).
    assert (Hqe : q0 = Z.abs a_s / Z.abs b_s)
      by (apply Z.div_unique with (r := r0); [left; lia | lia]).
    assert (Hre : r0 = Z.abs a_s mod Z.abs b_s)
      by (apply Z.mod_unique with (q := q0); [left; lia | lia]).
    rewrite Hrun, Hqe, Hre, quot_by_magnitudes, rem_by_magnitudes by exact Hbs.
    reflexivity.
  - rewrite div_nonrestoring_signed_exact by assumption. fold a_s b_s.
    rewrite <- (quot_by_magnitudes a_s b_s Hbs), <- (rem_by_magnitudes a_s b_s Hbs).
    f_equal. f_equal.
    + destruct (xorb (a_s <? 0) (b_s <? 0)); cbn [andb].
      * destruct (Z.eqb_spec (Z.abs a_s / Z.abs b_s) 0) as [-> | _];
          reflexivity.
      * symmetry. apply Z.mod_small. exact Hq0.
    + destruct (a_s <? 0); cbn [andb].
      * destruct (Z.eqb_spec (Z.abs a_s mod Z.abs b_s) 0) as [-> | _];
          reflexivity.
      * symmetry. apply Z.mod_small. exact Hr0.
Qed.

Lemma signed_division_truncates_witness :
  1 ≤ 8 ∧ signed_val 8 2 ≠ 0 ∧
  div_restoring (-7) 2 8 true = Ok (253, 255)
  ∧ div_nonrestoring (-7) 2 8 true = Ok (253, 255).
Proof.
  assert (H : signed_val 8 2 ≠ 0) by (vm_compute; discriminate).
  split; [lia |]. split; [exact H |].
  exact (signed_division_truncates (-7) 2 8 ltac:(lia) H).
Defined.

(** ** Dividers: a nonzero divisor whose low [w] bits are all clear *)

(** With divisor 0 every restoring step keeps the subtraction, so the
    quotient register fills with ones while the dividend moves into the
    accumulator. *)
Lemma restoring_loop_zero (w : Z) (n : nat) :
  ∀ (i k lo A : Z),
    0 ≤ k → k + Z.of_nat n = w → 1 ≤ w →
    0 ≤ lo < 2 ^ (w - k) → 0 ≤ A < 2 ^ k →
    for_loop n i (restoring_body 0 w) (A, lo * 2 ^ k + (2 ^ k - 1))
    = Ok (A * 2 ^ Z.of_nat n + lo, 2 ^ w - 1).
Proof.
  induction n as [| n IH]; intros i k lo A Hk Hkn Hw Hlo HA.
  - simpl in Hkn. assert (k = w) as -> by lia.
    rewrite Z.sub_diag in Hlo. change (2 ^ 0) with 1 in Hlo.
    assert (lo = 0) as -> by lia.
    cbn [for_loop Z.of_nat]. change (2 ^ 0) with 1. do 2 f_equal; lia.
  - cbn [for_loop]. rewrite Nat2Z.inj_succ in *.
    set (m := Z.of_nat n) in *.
    assert (Hm : 0 ≤ m) by (subst m; lia).
    pose proof (pow2_pos k Hk) as Hpk.
    pose proof (pow2_pos m Hm) as Hpm.
    assert (Hwk : 2 ^ (w - k) = 2 * 2 ^ m)
      by (replace (w - k) with (m + 1) by lia; now apply pow2_succ).
    assert (Hw1 : 2 ^ (w - 1) = 2 ^ m * 2 ^ k)
      by (rewrite <- Z.pow_add_r by lia; f_equal; lia).
    assert (Hww : 2 ^ w = 2 * (2 ^ m * 2 ^ k))
      by (rewrite <- Hw1; now apply pow2_pred).
    set (bit := lo / 2 ^ m). set (lo' := lo mod 2 ^ m).
    assert (Hdec : lo = 2 ^ m * bit + lo') by (apply Z.div_mod; lia).
    assert (Hlo' : 0 ≤ lo' < 2 ^ m) by (apply Z.mod_pos_bound; lia).
    assert (Hbit : 0 ≤ bit < 2).
    { split; [apply Z.div_pos; lia | apply Z.div_lt_upper_bound; lia]. }
    assert (Hrest : 0 ≤ lo' * 2 ^ k + (2 ^ k - 1) < 2 ^ m * 2 ^ k) by nia.
    assert (Htop : (lo * 2 ^ k + (2 ^ k - 1)) / 2 ^ (w - 1) = bit).
    { symmetry. apply Z.div_unique with (r := lo' * 2 ^ k + (2 ^ k - 1)).
      - left. rewrite Hw1. exact Hrest.
      - rewrite Hw1, Hdec. ring. }
    assert (Hdbl : (2 * (lo * 2 ^ k + (2 ^ k - 1))) mod 2 ^ w + 1
                   = lo' * 2 ^ (k + 1) + (2 ^ (k + 1) - 1)).
    { rewrite pow2_succ by lia.
      replace (lo' * (2 * 2 ^ k) + (2 * 2 ^ k - 1))
        with (lo' * (2 * 2 ^ k) + 2 * (2 ^ k - 1) + 1) by ring.
      f_equal. symmetry. apply Z.mod_unique with (q := bit).
      - left. rewrite Hww. nia.
      - rewrite Hww, Hdec. ring. }
    rewrite restoring_body_ok by (rewrite ?Hw1, ?Hww; nia).
    rewrite Htop, Hdbl, Z.sub_0_r.
    destruct (Z.ltb_spec (2 * A + bit) 0) as [Hneg | _]; [lia |]. run.
    rewrite (IH (i + 1) (k + 1) lo' (2 * A + bit))
      by (rewrite ?pow2_succ by lia;
          try replace (w - (k + 1)) with m by lia; lia).
    do 2 f_equal. rewrite <- Z.add_1_r, pow2_succ, Hdec by lia. subst m. ring.
Qed.

Lemma restoring_range_zero (a w : Z) :
  1 ≤ w → 0 ≤ a < 2 ^ w →
  for_range w (restoring_body 0 w) (0, a) = Ok (a, 2 ^ w - 1).
Proof.
  intros Hw Ha. unfold for_range.
  pose proof (restoring_loop_zero w (Z.to_nat w) 0 0 a 0) as Hloop.
  rewrite Z.sub_0_r, Z2Nat.id in Hloop by lia.
  change (2 ^ 0) with 1 in Hloop.
  rewrite Z.mul_1_r, Z.sub_diag, Z.add_0_r, Z.mul_0_l, Z.add_0_l in Hloop.
  apply Hloop; lia.
Qed.

(** X13: when the raw divisor is nonzero but a multiple of [2^w], the
    restoring divider divides by zero without reporting it: it returns
    the masked dividend as remainder and an all-ones quotient ([2^w - 1],
    or 1 for a negative signed dividend).  The unsigned non-restoring
    divider does the same; the signed one raises the division error. *)
Theorem masked_zero_divisor_result (a b w : Z) (signed : bool) :
  1 ≤ w → b ≠ 0 → unsigned_val w b = 0 →
  div_restoring a b w signed
  = Ok (if signed && (signed_val w a <? 0) then 1 else 2 ^ w - 1,
        unsigned_val w a)
  ∧ div_nonrestoring a b w false = Ok (2 ^ w - 1, unsigned_val w a)
  ∧ div_nonrestoring a b w true = Raise DivisionByZero.
Proof.
  intros Hw Hb Hbm.
  pose proof (pow2_pos w ltac:(lia)) as Hpw.
  pose proof (pow2_pred w Hw) as Hp.
  pose proof (pow2_pos (w - 1) ltac:(lia)) as Hpos.
  assert (Hbs : signed_val w b = 0).
  { rewrite signed_val_cases by lia. unfold unsigned_val in Hbm. rewrite Hbm.
    destruct (Z.ltb_spec 0 (2 ^ (w - 1))); lia. }
  assert (Hun : div_restoring a b w false = Ok (2 ^ w - 1, unsigned_val w a)).
  { unfold div_restoring. destruct (Z.eqb_spec b 0) as [| _]; [contradiction |].
    run. fold (unsigned_val w a) (unsigned_val w b). rewrite Hbm.
    rewrite restoring_range_zero by (exact Hw || apply unsigned_val_range; lia).
    run. reflexivity. }
  split; [| split].
  - destruct signed; cbn [andb]; [| exact Hun].
    unfold div_restoring. destruct (Z.eqb_spec b 0) as [| _]; [contradiction |].
    rewrite !to_signed_ok by lia. run. rewrite Hbs. simpl (Z.abs 0).
    pose proof (signed_val_range w a Hw) as Ha.
    rewrite restoring_range_zero by lia. run.
    change (0 <? 0) with false. rewrite xorb_false_r.
    unfold unsigned_val. rewrite <- (signed_val_mod w a) by lia.
    do 2 f_equal.
    + destruct (Z.ltb_spec (signed_val w a) 0).
      * symmetry. apply Z.mod_unique with (q := -1); lia.
      * apply Z.mod_small; lia.
    + f_equal. destruct (Z.ltb_spec (signed_val w a) 0); lia.
  - rewrite div_nonrestoring_unsigned. exact Hun.
  - apply div_nonrestoring_masked_zero; assumption.
Qed.

Lemma masked_zero_divisor_result_witness :
  1 ≤ 8 ∧ 256 ≠ 0 ∧ unsigned_val 8 256 = 0 ∧
  div_restoring (-5) 256 8 true = Ok (1, 251)
  ∧ div_nonrestoring (-5) 256 8 false = Ok (255, 251)
  ∧ div_nonrestoring (-5) 256 8 true = Raise DivisionByZero.
Proof.
  split; [lia |]. split; [lia |]. split; [reflexivity |].
  exact (masked_zero_divisor_result (-5) 256 8 true
           ltac:(lia) ltac:(lia) ltac:(reflexivity)).
Defined.

(** ** Dividers: the outputs are [w]-bit patterns *)

(** X14: for every width [w >= 1] and nonzero raw divisor, the
    quotient and the remainder a divider returns both lie in [0, 2^w),
    in either mode; this includes the restoring results for a divisor that
    masks to zero. *)
Theorem divider_outputs_are_patterns
    (v : divider) (a b w : Z) (signed : bool) :
  1 ≤ w → b ≠ 0 → ¬ masked_zero_divisor v signed w b →
  ∃ q r, divide v a b w signed = Ok (q, r)
         ∧ 0 ≤ q < 2 ^ w ∧ 0 ≤ r < 2 ^ w.
Proof.
  intros Hw Hb Hmz. pose proof (pow2_pos w ltac:(lia)) as Hpw.
  destruct signed.
  - destruct v; cbn [divide].
    + destruct (div_restoring_signed a b w Hw Hb) as (q0 & r0 & Hrun & _).
      eexists _, _. split; [exact Hrun |].
      split; apply Z.mod_pos_bound; lia.
    + assert (Hbs : signed_val w b ≠ 0)
        by (intros Hz; apply Hmz; repeat split; assumption).
      rewrite div_nonrestoring_signed_exact by assumption.
      destruct (magnitude_division_range w (signed_val w a) (signed_val w b)
                  Hw (signed_val_range w a Hw) Hbs) as [Hq0 Hr0].
      eexists _, _. split; [reflexivity |].
      split.
      * destruct (xorb _ _ && negb _); [apply Z.mod_pos_bound; lia | exact Hq0].
      * destruct ((_ <? 0) && negb _); [apply Z.mod_pos_bound; lia | exact Hr0].
  - destruct (div_restoring_unsigned a b w Hw Hb)
      as (q & r & Hrun & Hid & Hr & Hlt & Hq).
    pose proof (unsigned_val_range w a ltac:(lia)) as Ha.
    pose proof (unsigned_val_range w b ltac:(lia)) as Hbr.
    exists q, r. split.
    + destruct v; cbn [divide]; [| rewrite div_nonrestoring_unsigned]; exact Hrun.
    + split; [exact Hq | nia].
Qed.

Lemma divider_outputs_are_patterns_witness :
  1 ≤ 8 ∧ 256 ≠ 0 ∧ ¬ masked_zero_divisor Restoring true 8 256 ∧
  ∃ q r, divide Restoring (-5) 256 8 true = Ok (q, r)
         ∧ 0 ≤ q < 2 ^ 8 ∧ 0 ≤ r < 2 ^ 8.
Proof.
  assert (H : ¬ masked_zero_divisor Restoring true 8 256)
    by (intros (Hv & _); discriminate Hv).
  split; [lia |]. split; [lia |]. split; [exact H |].
  apply (divider_outputs_are_patterns Restoring (-5) 256 8 true); [lia | lia | exact H].
Defined.

(** ** Verifier: which draws make [verify] fail *)












(** ** AddSub: subtraction undoes addition *)

(** X16: at every width [w >= 1] and in both modes, subtracting [b]
    from the result of [add a b] gives back the masked [a], and adding
    [b] to the result of [sub a b] does too, whatever the flags say. *)
Theorem add_sub_inverse (a b w : Z) (signed : bool) :
  1 ≤ w →
  ∃ s d add_flags sub_flags back_flags forth_flags,
    add a b w signed = Ok (s, add_flags)
    ∧ sub s b w signed = Ok (unsigned_val w a, back_flags)
    ∧ sub a b w signed = Ok (d, sub_flags)
    ∧ add d b w signed = Ok (unsigned_val w a, forth_flags).
Proof.
  intros Hw. pose proof (pow2_pos w ltac:(lia)) as Hpos.
  eexists _, _, _, _, _, _.
  split; [apply add_ok; exact Hw |].
  split; [| split; [apply sub_ok; exact Hw |]].
  - rewrite sub_ok by exact Hw. rewrite !add_result_sum by exact Hw.
    rewrite Zplus_mod_idemp_l. unfold unsigned_val.
    replace (a + b + - b) with a by lia. reflexivity.
  - rewrite add_ok by exact Hw. rewrite !add_result_sum by exact Hw.
    rewrite Zplus_mod_idemp_l. unfold unsigned_val.
    replace (a + - b + b) with a by lia. reflexivity.
Qed.

Lemma add_sub_inverse_witness :
  1 ≤ 8 ∧
  ∃ s d add_flags sub_flags back_flags forth_flags,
    add 200 100 8 false = Ok (s, add_flags)
    ∧ sub s 100 8 false = Ok (unsigned_val 8 200, back_flags)
    ∧ sub 200 100 8 false = Ok (d, sub_flags)
    ∧ add d 100 8 false = Ok (unsigned_val 8 200, forth_flags).
Proof. split; [lia | apply (add_sub_inverse 200 100 8 false); lia]. Defined.
